(** * WebActionCapture: capture pipeline, clock correlation and frame
      reconciliation

    A shallow embedding of [save.py], [capture.py], [parser_mac.py] and the
    device and encoder selection of [video.py].

    Python values are modelled as the interpreter has them: [float] is IEEE
    binary64 (Rocq's primitive floats), [int] is an unbounded integer ([Z]),
    [str] is a sequence of Unicode code points, a [dict] keeps its keys in
    insertion order, and an exception is an explicit error result. *)

From Stdlib Require Import ZArith NArith List String Ascii Bool Lia Floats Sorted.
From Stdlib Require DecimalN.
Import ListNotations.

Set Warnings "-inexact-float,-register-all".

Local Open Scope Z_scope.

(* ================================================================== *)
(** * Python values *)
(* ================================================================== *)

Module Py.

(** ** Strings: sequences of code points *)

Definition char := N.
Definition str := list char.

Definition lit (s : string) : str :=
  List.map N_of_ascii (list_ascii_of_string s).

Definition str_eqb (a b : str) : bool :=
  if list_eq_dec N.eq_dec a b then true else false.

(** [str.isspace] on one code point; it is also what [\s] matches in a
    [str] pattern and what [str.strip()] removes. *)
Definition is_space (c : char) : bool :=
  (((9 <=? c) && (c <=? 13)) || ((28 <=? c) && (c <=? 32))
   || (c =? 133) || (c =? 160) || (c =? 5760)
   || ((8192 <=? c) && (c <=? 8202))
   || (c =? 8232) || (c =? 8233) || (c =? 8239) || (c =? 8287)
   || (c =? 12288))%N.

(** [[0-9]] *)
Definition is_digit (c : char) : bool := ((48 <=? c) && (c <=? 57))%N.

Definition is_ascii_word (c : char) : bool :=
  (is_digit c || ((65 <=? c) && (c <=? 90)) || ((97 <=? c) && (c <=? 122))
   || (c =? 95))%N.

Definition digit_val (c : char) : Z := Z.of_N c - 48.

(** Value of a run of decimal digits, most significant first. *)
Definition digits_val (ds : str) : Z :=
  fold_left (fun acc c => 10 * acc + digit_val c) ds 0.

(** ** Exceptions and results *)

Inductive exn :=
| AttributeError | FileNotFoundError | JSONDecodeError | OSError
| OverflowError | QueueFull | RecursionError | RuntimeError | TypeError
| UnicodeEncodeError | ValueError | ZeroDivisionError.

Definition exn_eqb (a b : exn) : bool :=
  match a, b with
  | AttributeError, AttributeError | FileNotFoundError, FileNotFoundError
  | JSONDecodeError, JSONDecodeError | OSError, OSError
  | OverflowError, OverflowError | QueueFull, QueueFull
  | RecursionError, RecursionError | RuntimeError, RuntimeError
  | TypeError, TypeError | UnicodeEncodeError, UnicodeEncodeError
  | ValueError, ValueError | ZeroDivisionError, ZeroDivisionError => true
  | _, _ => false
  end.

Inductive result (A : Type) :=
| Ok (a : A)
| Raise (e : exn).
Arguments Ok {A} a.
Arguments Raise {A} e.

Definition bind {A B} (m : result A) (k : A -> result B) : result B :=
  match m with
  | Ok a => k a
  | Raise e => Raise e
  end.

(** [try: m  except e: h] *)
Definition try_except {A} (m : result A) (e : exn) (h : result A) : result A :=
  match m with
  | Ok a => Ok a
  | Raise e' => if exn_eqb e' e then h else Raise e'
  end.

Declare Scope py_scope.
Delimit Scope py_scope with py.
Notation "x <- m ;; k" := (bind m (fun x => k))
  (at level 61, m at next level, right associativity) : py_scope.
Notation "' p <- m ;; k" := (bind m (fun x => let p := x in k))
  (at level 61, p pattern, m at next level, right associativity) : py_scope.

(** ** Floats *)

Local Open Scope float_scope.

(** The double nearest to [±n/d] (ties to even), as [strtod] and the
    conversions of CPython compute it. *)
Definition nearest_ratio (s : bool) (n d : positive) : float :=
  SF2Prim (SFdiv prec emax (S754_finite s n 0) (S754_finite false d 0)).

(** [float(z)] for an [int]: correctly rounded, [OverflowError] when the
    integer is too large for a double. *)
Definition float_of_int (z : Z) : result float :=
  match binary_normalize prec emax z 0 false with
  | S754_infinity _ => Raise OverflowError
  | r => Ok (SF2Prim r)
  end.

Fixpoint pow10 (k : nat) : positive :=
  match k with
  | O => 1%positive
  | S k' => (10 * pow10 k')%positive
  end.

(** [float(s)] for a string of the shape [[0-9]+(\.[0-9]+)?], given as its
    integer digits and its fraction digits; a value too large rounds to
    [inf], as in CPython. *)
Definition float_of_decimal (ip fp : str) : float :=
  match digits_val (ip ++ fp) with
  | Zpos n => nearest_ratio false n (pow10 (List.length fp))
  | _ => 0
  end.

(** [int(x)] for a float: truncation toward zero; [ValueError] on NaN,
    [OverflowError] on an infinity. *)
Definition int_of_float (x : float) : result Z :=
  match Prim2SF x with
  | S754_nan => Raise ValueError
  | S754_infinity _ => Raise OverflowError
  | S754_zero _ => Ok 0%Z
  | S754_finite s m e =>
      let a := match e with
               | Z0 => Zpos m
               | Zpos p => (Zpos m * 2 ^ Zpos p)%Z
               | Zneg p => (Zpos m / 2 ^ Zpos p)%Z
               end in
      Ok (if s then (- a)%Z else a)
  end.

(** [round(x, 6)]: the exact value of [x] rounded to the nearest multiple of
    [10^-6], ties to even, and the double nearest to that decimal. *)
Definition round6 (x : float) : float :=
  match Prim2SF x with
  | S754_finite s m e =>
      let '(num, den) :=
        match e with
        | Zneg p => (Zpos m * 1000000, 2 ^ Zpos p)%Z
        | _ => (Zpos m * 2 ^ e * 1000000, 1)%Z
        end in
      let q := (num / den)%Z in
      let r := (num mod den)%Z in
      let n := if (2 * r <? den)%Z then q
               else if (den <? 2 * r)%Z then (q + 1)%Z
               else if Z.even q then q else (q + 1)%Z in
      match n with
      | Zpos k => nearest_ratio s k 1000000
      | _ => if s then neg_zero else zero
      end
  | _ => x
  end.

(** ** JSON values and dicts *)

Inductive json :=
| JNull
| JBool (b : bool)
| JInt (z : Z)
| JFloat (f : float)
| JStr (s : str)
| JArr (l : list json)
| JObj (d : list (str * json)).

Definition dict := list (str * json).

Fixpoint dict_get (d : dict) (k : str) : option json :=
  match d with
  | [] => None
  | (k', v) :: d' => if str_eqb k' k then Some v else dict_get d' k
  end.

(** [d.get(k)], with Python's [None] for a missing key. *)
Definition get (d : dict) (k : str) : json :=
  match dict_get d k with Some v => v | None => JNull end.

Definition get_default (d : dict) (k : str) (dflt : json) : json :=
  match dict_get d k with Some v => v | None => dflt end.

(** [d[k] = v]: an existing key keeps its position, a new key goes last. *)
Fixpoint dict_set (d : dict) (k : str) (v : json) : dict :=
  match d with
  | [] => [(k, v)]
  | (k', v') :: d' =>
      if str_eqb k' k then (k', v) :: d' else (k', v') :: dict_set d' k v
  end.

(** [d.pop(k, None)] *)
Fixpoint dict_pop (d : dict) (k : str) : dict :=
  match d with
  | [] => []
  | (k', v') :: d' => if str_eqb k' k then d' else (k', v') :: dict_pop d' k
  end.

(** [x in s] for a set of strings: a string is looked up, any other hashable
    value is absent, a list or a dict is unhashable. *)
Definition in_str_set (x : json) (s : list str) : result bool :=
  match x with
  | JStr t => Ok (existsb (str_eqb t) s)
  | JArr _ | JObj _ => Raise TypeError
  | _ => Ok false
  end.

End Py.

(* ================================================================== *)
(** * save.py: the two bounded sinks *)
(* ================================================================== *)

Module Save.
Import Py.
Local Open Scope py_scope.

(** [queue.Queue(maxsize)]: the items waiting, oldest first.  A queue whose
    [maxsize] is not positive is unbounded. *)
Record Queue (A : Type) := mkQueue { maxsize : Z; items : list A }.
Arguments mkQueue {A} _ _.
Arguments maxsize {A} _.
Arguments items {A} _.

Definition qsize {A} (q : Queue A) : Z := Z.of_nat (List.length (items q)).

Definition full {A} (q : Queue A) : bool :=
  (0 <? maxsize q) && (maxsize q <=? qsize q).

(** [q.put_nowait(x)]: never waits; raises [queue.Full] when no slot is
    free. *)
Definition put_nowait {A} (q : Queue A) (x : A) : result (Queue A) :=
  if full q then Raise QueueFull
  else Ok (mkQueue (maxsize q) (items q ++ [x])).

(** The body shared by [LogPump.put] and [JsonlWriter.put]. *)
Definition put_or_drop {A} (q : Queue A) (x : A) : result (Queue A) :=
  try_except (put_nowait q x) QueueFull (Ok q).

(** [threading.Thread], as far as [start] and [join] can tell it apart:
    created, or started (running or ended). *)
Inductive Thread := Initial | Started.

(** [t.start()]: a thread can be started once. *)
Definition Thread_start (t : Thread) : result Thread :=
  match t with
  | Initial => Ok Started
  | Started => Raise RuntimeError
  end.


(** [LogPump]: [None] in the queue is the shutdown sentinel. *)
Record LogPump := mkLogPump {
  pump_q : Queue (option str);
  pump_stop : bool;
  pump_t : Thread
}.

Definition LogPump_init : LogPump :=
  mkLogPump (mkQueue 10000 []) false Initial.

Definition LogPump_start (p : LogPump) : result LogPump :=
  t <- Thread_start (pump_t p) ;;
  Ok (mkLogPump (pump_q p) (pump_stop p) t).

Definition LogPump_put (p : LogPump) (line : str) : result LogPump :=
  q <- put_or_drop (pump_q p) (Some line) ;;
  Ok (mkLogPump q (pump_stop p) (pump_t p)).

Record JsonlWriter := mkJsonlWriter {
  out_dir : str;
  filename : str;
  jsonl_q : Queue (option dict);
  jsonl_stop : bool;
  jsonl_t : Thread
}.

Definition JsonlWriter_init (dir name : str) : JsonlWriter :=
  mkJsonlWriter dir name (mkQueue 10000 []) false Initial.

Definition JsonlWriter_start (w : JsonlWriter) : result JsonlWriter :=
  t <- Thread_start (jsonl_t w) ;;
  Ok (mkJsonlWriter (out_dir w) (filename w) (jsonl_q w) (jsonl_stop w) t).

Definition JsonlWriter_put (w : JsonlWriter) (obj : dict) : result JsonlWriter :=
  q <- put_or_drop (jsonl_q w) (Some obj) ;;
  Ok (mkJsonlWriter (out_dir w) (filename w) q (jsonl_stop w) (jsonl_t w)).

(** ** Shutdown and the consumer threads *)




(** One turn of the loop [while not self._stop.is_set(): ...] of a consumer,
    taken from the head of the loop. *)
Inductive Turn (A : Type) :=
| Exited                (* the flag was set, or the sentinel was taken *)
| Waiting               (* [queue.Empty] after the timeout: [continue] *)
| Got (item : A).
Arguments Exited {A}.
Arguments Waiting {A}.
Arguments Got {A} item.

Definition consumer_turn {A} (stop : bool) (q : Queue (option A))
  : Queue (option A) * Turn A :=
  if stop then (q, Exited)
  else
    match items q with
    | [] => (q, Waiting)
    | None :: rest => (mkQueue (maxsize q) rest, Exited)
    | Some x :: rest => (mkQueue (maxsize q) rest, Got x)
    end.

(** How a run of a consumer thread stands: still in its loop, returned from
    [_run], or ended by an exception that nothing caught. *)
Inductive Ending :=
| Looping
| Returned
| Died (e : exn).

Section Printer.

(** What [print(item, flush=True)] raises for a line, if anything (a line
    that stdout cannot encode, a closed pipe); a line for which it raises
    is not counted as printed. *)
Variable print_error : str -> option exn.

(** [LogPump._run], for at most [n] turns while no producer puts anything:
    the lines printed, the pump, and how the thread stands.  A turn that
    finds the queue empty would find it empty again. *)
Fixpoint LogPump_run (n : nat) (p : LogPump) : list str * LogPump * Ending :=
  match n with
  | O => ([], p, Looping)
  | S n' =>
      let keep q := mkLogPump q (pump_stop p) (pump_t p) in
      match consumer_turn (pump_stop p) (pump_q p) with
      | (q, Exited) => ([], keep q, Returned)
      | (q, Waiting) => ([], keep q, Looping)
      | (q, Got line) =>
          match print_error line with
          | Some e => ([], keep q, Died e)
          | None =>
              let '(out, p', ending) := LogPump_run n' (keep q) in
              (line :: out, p', ending)
          end
      end
  end.

End Printer.

Section Writer.

(** What one pass through [json.dumps], [write], [flush] and [fsync] appends
    to the file for an item: its line, or nothing when one of them raises
    (the exception is swallowed). *)
Variable append_line : dict -> option str.

(** [JsonlWriter._run] on an opened file, for at most [n] turns while no
    producer puts anything: the lines appended, the writer, and whether the
    thread has ended. *)
Fixpoint JsonlWriter_run (n : nat) (w : JsonlWriter)
  : list str * JsonlWriter * bool :=
  match n with
  | O => ([], w, false)
  | S n' =>
      let keep q :=
        mkJsonlWriter (out_dir w) (filename w) q (jsonl_stop w) (jsonl_t w) in
      match consumer_turn (jsonl_stop w) (jsonl_q w) with
      | (q, Exited) => ([], keep q, true)
      | (q, Waiting) => ([], keep q, false)
      | (q, Got item) =>
          let '(out, w', ended) := JsonlWriter_run n' (keep q) in
          (match append_line item with
           | Some line => line :: out
           | None => out
           end, w', ended)
      end
  end.

End Writer.

End Save.

(* ================================================================== *)
(** * capture.py: the event capture pipeline *)
(* ================================================================== *)

Module Capture.
Import Py Save.
Local Open Scope py_scope.

Record Config := mkConfig {
  debug : bool;
  action_types : list str
}.

Record Recorder := mkRecorder {
  config : Config;
  pump : LogPump;
  jsonl : JsonlWriter
}.

(** A console message of the page: [msg.type] and [msg.text]. *)
Record ConsoleMessage := mkMsg { msg_type : str; msg_text : str }.

(** The ellipsis character U+2026. *)
Definition ellipsis : char := 8230%N.

(** [v if len(v) <= 120 else (v[:117] + "…")] *)
Definition redact (v : str) : str :=
  if (List.length v <=? 120)%nat then v else firstn 117 v ++ [ellipsis].

(** The timestamp normalisation of [_emit_event], on the copy [evt]:
    [isinstance(ts, (int, float)) and ts > 1e10] (a [bool] is an [int], 0 or
    1), then [round(ts / 1000.0, 6)]. *)
Definition normalize_ts (evt : dict) : result dict :=
  match get evt (lit "ts") with
  | JInt z =>
      if 10000000000 <? z then
        f <- float_of_int z ;;
        Ok (dict_set evt (lit "ts") (JFloat (round6 (f / 1000))))
      else Ok evt
  | JFloat f =>
      if (10000000000 <? f)%float then
        Ok (dict_set evt (lit "ts") (JFloat (round6 (f / 1000))))
      else Ok evt
  | _ => Ok evt
  end.

(** [x == 1] *)
Definition eq_one (x : json) : bool :=
  match x with
  | JInt z => z =? 1
  | JFloat f => (f =? 1)%float
  | JBool b => b
  | _ => false
  end.

(** The redaction step of [_on_console], on the parsed object:
    [obj.get("type") in {"type", "type_commit"} and
     isinstance(obj.get("value"), str)]. *)
Definition redact_value (obj : dict) : result dict :=
  typed <- in_str_set (get obj (lit "type")) [lit "type"; lit "type_commit"] ;;
  if typed then
    match get obj (lit "value") with
    | JStr v => Ok (dict_set obj (lit "value") (JStr (redact v)))
    | _ => Ok obj
    end
  else Ok obj.

(** [obj.get("__rec") == 1 and obj.get("type") in self.config.action_types] *)
Definition accepted (cfg : Config) (obj : dict) : result bool :=
  if eq_one (get obj (lit "__rec"))
  then in_str_set (get obj (lit "type")) (action_types cfg)
  else Ok false.

Section Pipeline.

(** [json.loads], [json.dumps(..., separators=(",", ":"))] and [str.upper]. *)
Variable json_loads : str -> option json.
Variable json_dumps : dict -> str.
Variable upper : str -> str.

Definition tagged (category pid body : str) : str :=
  lit "[" ++ category ++ lit "] [" ++ pid ++ lit "] " ++ body.

Definition pump_put (r : Recorder) (line : str) : result Recorder :=
  p <- LogPump_put (pump r) line ;;
  Ok (mkRecorder (config r) p (jsonl r)).

Definition debug_put (r : Recorder) (line : str) : result Recorder :=
  if debug (config r) then pump_put r line else Ok r.

(** [Recorder._emit_event]: the copy is normalised, then handed to the
    structured sink and, serialised, to the console sink. *)
Definition _emit_event (r : Recorder) (pid : str) (obj : dict) : result Recorder :=
  evt <- normalize_ts obj ;;
  w <- JsonlWriter_put (jsonl r) evt ;;
  pump_put (mkRecorder (config r) (pump r) w)
           (tagged (lit "BROWSER_LOG") pid (json_dumps evt)).

(** The handler [_on_console] that [_wire] installs for the page [pid]. *)
Definition _on_console (r : Recorder) (pid : str) (msg : ConsoleMessage)
  : result Recorder :=
  let text := msg_text msg in
  match text with
  | c :: _ =>
      if (c =? 123)%N then
        match json_loads text with
        | None => debug_put r (tagged (lit "BROWSER_PARSE_ERR") pid text)
        | Some (JObj obj) =>
            ok <- accepted (config r) obj ;;
            if ok then
              obj' <- redact_value (dict_pop obj (lit "__rec")) ;;
              _emit_event r pid obj'
            else debug_put r (tagged (lit "BROWSER_OTHER") pid text)
        | Some _ => Raise AttributeError
        end
      else
        debug_put r (tagged (lit "BROWSER_" ++ upper (msg_type msg)) pid text)
  | [] => debug_put r (tagged (lit "BROWSER_" ++ upper (msg_type msg)) pid text)
  end.

End Pipeline.

(** ** Page identifiers *)

(** [Recorder.page_ids], keyed by the page object (here a number standing
    for its identity), in insertion order, and the number of UUIDs drawn so
    far. *)
Record Pages := mkPages { page_ids : list (nat * str); drawn : nat }.

Fixpoint page_lookup (ids : list (nat * str)) (page : nat) : option str :=
  match ids with
  | [] => None
  | (p, pid) :: rest => if (p =? page)%nat then Some pid else page_lookup rest page
  end.

Section PageIds.

(** [str(uuid.uuid4())] for the [k]-th UUID drawn. *)
Variable uuid4 : nat -> str.

(** [self.page_ids.setdefault(page, str(uuid.uuid4())[:8])], the body of
    [_pid] and the first line of [_wire]: the default is drawn before the
    lookup, whether it is needed or not. *)
Definition _pid (ps : Pages) (page : nat) : Pages * str :=
  let fresh := firstn 8 (uuid4 (drawn ps)) in
  match page_lookup (page_ids ps) page with
  | Some pid => (mkPages (page_ids ps) (S (drawn ps)), pid)
  | None => (mkPages (page_ids ps ++ [(page, fresh)]) (S (drawn ps)), fresh)
  end.

End PageIds.

End Capture.

(* ================================================================== *)
(** * parser_mac.py: clock correlation and frame reconciliation *)
(* ================================================================== *)

Module ParserMac.
Import Py.
Local Open Scope py_scope.

(** ** Small string helpers *)

Fixpoint span (p : char -> bool) (s : str) : str * str :=
  match s with
  | [] => ([], [])
  | c :: s' =>
      if p c then let '(a, b) := span p s' in (c :: a, b) else ([], s)
  end.

Fixpoint strip_prefix (pre s : str) : option str :=
  match pre, s with
  | [], _ => Some s
  | a :: pre', c :: s' => if (a =? c)%N then strip_prefix pre' s' else None
  | _ :: _, [] => None
  end.

Fixpoint drop_while (p : char -> bool) (s : str) : str :=
  match s with
  | [] => []
  | c :: s' => if p c then drop_while p s' else s
  end.

(** [s.strip()] *)
Definition strip (s : str) : str :=
  rev (drop_while is_space (rev (drop_while is_space s))).

Fixpoint uint_str (u : Decimal.uint) : str :=
  match u with
  | Decimal.Nil => []
  | Decimal.D0 u' => 48%N :: uint_str u'
  | Decimal.D1 u' => 49%N :: uint_str u'
  | Decimal.D2 u' => 50%N :: uint_str u'
  | Decimal.D3 u' => 51%N :: uint_str u'
  | Decimal.D4 u' => 52%N :: uint_str u'
  | Decimal.D5 u' => 53%N :: uint_str u'
  | Decimal.D6 u' => 54%N :: uint_str u'
  | Decimal.D7 u' => 55%N :: uint_str u'
  | Decimal.D8 u' => 56%N :: uint_str u'
  | Decimal.D9 u' => 57%N :: uint_str u'
  end.

(** The decimal digits of a natural number. *)
Definition nat_digits (n : N) : str := uint_str (N.to_uint n).

(** [str(z)] for an [int]. *)
Definition int_str (z : Z) : str :=
  match z with
  | Zneg p => lit "-" ++ nat_digits (Npos p)
  | _ => nat_digits (Z.to_N z)
  end.

(** [format(z, "06d")]: zero-padded to six characters, sign included. *)
Definition format_06d (z : Z) : str :=
  match z with
  | Zneg p =>
      let ds := nat_digits (Npos p) in
      lit "-" ++ repeat 48%N (5 - List.length ds) ++ ds
  | _ =>
      let ds := nat_digits (Z.to_N z) in
      repeat 48%N (6 - List.length ds) ++ ds
  end.

(** ** The encoder log: [START_RE] and [extract_ffmpeg_start_ts] *)

Section Parser.

(** [\w] on a code point outside ASCII (the interpreter's Unicode tables). *)
Variable unicode_word : char -> bool.

Definition is_word (c : char) : bool :=
  if (c <? 128)%N then is_ascii_word c else unicode_word c.

(** [\b] in front of a word character: the start of the text, or a
    preceding character that is not a word character. *)
Definition boundary (prev : option char) : bool :=
  match prev with
  | None => true
  | Some c => negb (is_word c)
  end.

(** [start:\s*([0-9]+(?:\.[0-9]+)?)] anchored at the head of [s]: group 1 as
    its integer and fraction digits, and the length of the match. *)
Definition match_here (s : str) : option (str * str * nat) :=
  match strip_prefix (lit "start:") s with
  | None => None
  | Some r0 =>
      let '(ws, r1) := span is_space r0 in
      let '(ip, r2) := span is_digit r1 in
      let n := (6 + List.length ws + List.length ip)%nat in
      match ip with
      | [] => None
      | _ :: _ =>
          match r2 with
          | 46%N :: r3 =>
              let '(fp, _) := span is_digit r3 in
              match fp with
              | [] => Some (ip, [], n)
              | _ :: _ => Some (ip, fp, (n + 1 + List.length fp)%nat)
              end
          | _ => Some (ip, [], n)
          end
      end
  end.

(** [START_RE] at a position whose preceding character is [prev]. *)
Definition match_at (prev : option char) (s : str) : option (str * str * nat) :=
  if boundary prev then match_here s else None.

(** [START_RE.finditer]: left to right, non-overlapping; [skip] counts the
    characters of the current match still to be passed over. *)
Fixpoint scan (prev : option char) (skip : nat) (s : str) : list (str * str) :=
  match s with
  | [] => []
  | c :: s' =>
      match skip with
      | S k => scan (Some c) k s'
      | O =>
          match match_at prev s with
          | Some (ip, fp, n) => (ip, fp) :: scan (Some c) (n - 1) s'
          | None => scan (Some c) 0 s'
          end
      end
  end.

Definition finditer (text : str) : list (str * str) := scan None 0 text.

Definition extract_ffmpeg_start_ts (text prefer : str) : option float :=
  let ms := finditer text in
  let m := if str_eqb prefer (lit "first") then hd_error ms
           else hd_error (rev ms) in
  match m with
  | Some (ip, fp) => Some (float_of_decimal ip fp)
  | None => None
  end.

(** ** Host time *)

(** What the process reads from the operating system at query time, on a
    host where [libSystem] loads. *)
Record Clock := mkClock {
  time_time : float;            (* time.time() *)
  mach_timebase_info_rc : Z;    (* return code of mach_timebase_info *)
  numer : Z;
  denom : Z;
  mach_absolute_time : Z
}.

Definition _mach_timebase_numer_denom (c : Clock) : result (Z * Z) :=
  if mach_timebase_info_rc c =? 0 then Ok (numer c, denom c)
  else Raise OSError.

Definition host_time_seconds_now (c : Clock) : result float :=
  let ticks := mach_absolute_time c in
  '(n, d) <- _mach_timebase_numer_denom c ;;
  if d =? 0 then Raise ZeroDivisionError
  else
    let ns := (ticks * n) / d in
    f <- float_of_int ns ;;
    Ok (f / 1000000000)%float.

Definition host_seconds_to_epoch (c : Clock) (host_secs : float) : result float :=
  let wall_now := time_time c in
  host_now <- host_time_seconds_now c ;;
  Ok ((wall_now - host_now) + host_secs)%float.

(** ** JSONL input *)

(** [json.loads] on one stripped line: the value, or the exception raised
    ([JSONDecodeError] for text that is not JSON; [ValueError] for an integer
    of too many digits and [RecursionError] for nesting too deep are not
    [JSONDecodeError]s); [float] on a string ([None]: [ValueError]); [str]
    of a JSON value that is not a string; [Path.resolve] as text. *)
Variable json_loads : str -> result json.
Variable float_of_str : str -> option float.
Variable py_str : json -> str.
Variable path_resolve : str -> str.

(** [read_jsonl] on a file that yields [lines] and then ends, or raises
    [failure] (it cannot be opened, or what follows cannot be read or
    decoded): the records the generator yields, in file order, and the
    exception that ends it, if any.  Blank lines and lines that raise
    [JSONDecodeError] are passed over; any other exception of [json.loads]
    leaves the generator at that line. *)
Fixpoint read_jsonl (lines : list str) (failure : option exn)
  : list json * option exn :=
  match lines with
  | [] => ([], failure)
  | line :: rest =>
      match strip line with
      | [] => read_jsonl rest failure
      | l =>
          match json_loads l with
          | Ok v => let '(evs, e) := read_jsonl rest failure in (v :: evs, e)
          | Raise e =>
              if exn_eqb e JSONDecodeError then read_jsonl rest failure
              else ([], Some e)
          end
      end
  end.

Definition sanitize_ts (v : json) : result (option float) :=
  match v with
  | JNull => Ok None
  | JBool b => Ok (Some (if b then 1 else 0)%float)
  | JInt z => f <- float_of_int z ;; Ok (Some f)
  | JFloat f => Ok (Some f)
  | JStr s => Ok (float_of_str s)
  | JArr _ | JObj _ => Ok None
  end.

(** ** [main] *)

(** The parsed command line, as far as it reaches the loop: [--ext] is one
    of the lower-case choices, so [args.ext.lower()] is [ext].  What is
    found under the paths built from [--basename], [--logs-dir],
    [--videos-dir], [--img-dir] and [--out-jsonl] is the [World] below. *)
Record Args := mkArgs {
  include_types : option (list str);
  offset_ms : float;
  min_gap_ms : float;
  ext : str;
  prefer : str
}.

(** The files and tools [main] finds under the paths of its command line, on
    a host where the paths resolve.  An [option exn] is what a call raises,
    if anything: [images_mkdir], [out_mkdir] and [out_open] for
    [images_dir.mkdir], [out_jsonl.parent.mkdir] and [out_jsonl.open],
    [log_read_error] for reading the encoder log, [jsonl_error] for opening
    and reading the event log behind the lines [jsonl_lines] it yields,
    [write_error i ev_out] for [json.dumps] and [fout.write] on the line of
    the [i]-th record, and [finish_error] for closing the output log and the
    prints that end a run.  [extract_frame_ok i t p] tells whether
    [extract_frame] succeeds for the [i]-th record of the event log when
    asked for the frame at [t] seconds into [p]. *)
Record World := mkWorld {
  missing : bool;
  ffmpeg_log : str;
  clock : Clock;
  ffmpeg_found : bool;
  jsonl_lines : list str;
  images_dir : str;
  extract_frame_ok : nat -> float -> str -> bool;
  images_mkdir : option exn;
  out_mkdir : option exn;
  log_read_error : option exn;
  out_open : option exn;
  jsonl_error : option exn;
  write_error : nat -> dict -> option exn;
  finish_error : option exn
}.

(** One line of the output log, with the loop variables it was written
    under: the position of its event in the input, [counter] and [rel_t]. *)
Record Written := mkWritten {
  w_index : nat;
  w_counter : Z;
  w_rel : float;
  w_out : dict
}.

Record Loop := mkLoop {
  counter : Z;
  last_rel : float;
  fout : list Written
}.

Definition loop_init : Loop := mkLoop 1 neg_infinity [].

(** [set(args.include_types) if args.include_types else None] *)
Definition include_set (a : Args) : option (list str) :=
  match include_types a with
  | Some (t :: l) => Some (t :: l)
  | _ => None
  end.

Definition min_gap_s (a : Args) : float :=
  if (0 <? min_gap_ms a)%float then (min_gap_ms a / 1000)%float else 0%float.

Definition offset_s (a : Args) : float := (offset_ms a / 1000)%float.

(** [f"{ev_type}"] *)
Definition format_value (v : json) : str :=
  match v with
  | JStr s => s
  | _ => py_str v
  end.

(** [include_types is not None and ev_type not in include_types] *)
Definition excluded (a : Args) (ev_type : json) : result bool :=
  match include_set a with
  | None => Ok false
  | Some l => b <- in_str_set ev_type l ;; Ok (negb b)
  end.

Definition frame_name (a : Args) (cnt : Z) (ev_type : json) (ms : Z) : str :=
  format_06d cnt ++ lit "_" ++ format_value ev_type ++ lit "_" ++ int_str ms
    ++ lit "." ++ ext a.

(** The body of the [for] loop on the [i]-th record [ev]. *)
Definition step (w : World) (a : Args) (video_start_epoch : float)
    (st : Loop) (i : nat) (ev : json) : result Loop :=
  match ev with
  | JObj d =>
      ts_opt <- sanitize_ts (get d (lit "ts")) ;;
      match ts_opt with
      | None => Ok st
      | Some ts =>
          if (ts <? video_start_epoch)%float then Ok st
          else
            let ev_type := get_default d (lit "type") (JStr (lit "event")) in
            out <- excluded a ev_type ;;
            if out then Ok st
            else
              let rel_t := ((ts - video_start_epoch) + offset_s a)%float in
              if (rel_t <? 0)%float then Ok st
              else if (rel_t - last_rel st <? min_gap_s a)%float then Ok st
              else
                ms <- int_of_float (ts * 1000)%float ;;
                let frame_path :=
                  images_dir w ++ lit "/" ++ frame_name a (counter st) ev_type ms in
                if extract_frame_ok w i rel_t frame_path then
                  let ev_out :=
                    dict_set d (lit "frame_path") (JStr (path_resolve frame_path)) in
                  match write_error w i ev_out with
                  | Some e => Raise e
                  | None =>
                      Ok (mkLoop (counter st + 1) rel_t
                            (fout st ++ [mkWritten i (counter st) rel_t ev_out]))
                  end
                else Ok st
      end
  | _ => Raise AttributeError
  end.

(** The [for] loop from the [i]-th record on: the state reached, and the
    exception that ended the loop early, if any. *)
Fixpoint loop (w : World) (a : Args) (video_start_epoch : float)
    (st : Loop) (i : nat) (evs : list json) : Loop * option exn :=
  match evs with
  | [] => (st, None)
  | ev :: rest =>
      match step w a video_start_epoch st i ev with
      | Ok st' => loop w a video_start_epoch st' (S i) rest
      | Raise e => (st, Some e)
      end
  end.

(** What a run leaves behind: the exception it ended with, if any, and the
    output log ([None] when the file was never opened); a line is kept as
    the dict that [json.dumps] is given. *)
Record Outcome := mkOutcome {
  raised : option exn;
  out_jsonl : option (list Written)
}.

(** The correlation anchor, as [main] computes it from the encoder log. *)
Definition video_start_epoch (log prefer : str) (c : Clock) : result float :=
  match extract_ffmpeg_start_ts log prefer with
  | None => Raise RuntimeError
  | Some host_start => host_seconds_to_epoch c host_start
  end.

(** The [with] block and what follows it: the loop runs over the records
    as the generator yields them, so the exception that ends the generator
    is raised after the records in front of it were handled; a loop that
    comes to its end is followed by the closing of the output log and the
    prints. *)
Definition reconcile (w : World) (a : Args) (anchor : float) : Outcome :=
  let '(evs, stopped) := read_jsonl (jsonl_lines w) (jsonl_error w) in
  let '(st, e) := loop w a anchor loop_init 0 evs in
  mkOutcome
    (match e with
     | Some e' => Some e'
     | None =>
         match stopped with
         | Some e' => Some e'
         | None => finish_error w
         end
     end)
    (Some (fout st)).

Definition main (w : World) (a : Args) : Outcome :=
  if missing w then mkOutcome (Some FileNotFoundError) None
  else
    match images_mkdir w with
    | Some e => mkOutcome (Some e) None
    | None =>
        match out_mkdir w with
        | Some e => mkOutcome (Some e) None
        | None =>
            match log_read_error w with
            | Some e => mkOutcome (Some e) None
            | None =>
                match
                  video_start_epoch (ffmpeg_log w) (prefer a) (clock w)
                with
                | Raise e => mkOutcome (Some e) None
                | Ok anchor =>
                    if ffmpeg_found w then
                      match out_open w with
                      | Some e => mkOutcome (Some e) None
                      | None => reconcile w a anchor
                      end
                    else mkOutcome (Some RuntimeError) None
                end
            end
        end
    end.

End Parser.

End ParserMac.

(* ================================================================== *)
(** * video.py: the choice of encoder and of the screen to capture *)
(* ================================================================== *)

Module Video.
Import Py.
Local Open Scope py_scope.

Fixpoint starts_with (pre s : str) : bool :=
  match pre, s with
  | [], _ => true
  | a :: pre', c :: s' => (a =? c)%N && starts_with pre' s'
  | _ :: _, [] => false
  end.

(** [sub in s] for two strings. *)
Fixpoint contains (sub s : str) : bool :=
  starts_with sub s
  || match s with
     | [] => false
     | _ :: s' => contains sub s'
     end.

(** The characters at which [str.splitlines] breaks a line, [\r] apart. *)
Definition is_line_break (c : char) : bool :=
  ((c =? 10) || (c =? 11) || (c =? 12) || (c =? 28) || (c =? 29) || (c =? 30)
   || (c =? 133) || (c =? 8232) || (c =? 8233))%N.

(** [s.splitlines()], with the current line held in reverse. *)
Fixpoint splitlines_from (cur : str) (s : str) : list str :=
  match s with
  | [] => match cur with [] => [] | _ :: _ => [rev cur] end
  | c :: s' =>
      if (c =? 13)%N then
        match s' with
        | 10%N :: s'' => rev cur :: splitlines_from [] s''
        | _ => rev cur :: splitlines_from [] s'
        end
      else if is_line_break c then rev cur :: splitlines_from [] s'
      else splitlines_from (c :: cur) s'
  end.

Definition splitlines (s : str) : list str := splitlines_from [] s.

(** ** [_pick_encoder] *)

Definition hevc_order : list str :=
  [lit "hevc_nvenc"; lit "hevc_qsv"; lit "hevc_amf"; lit "hevc_videotoolbox";
   lit "libx265"].

Definition h264_order : list str :=
  [lit "h264_nvenc"; lit "h264_qsv"; lit "h264_amf"; lit "h264_videotoolbox";
   lit "libx264"].

(** [for name in order: if name in enc_list: return name] *)
Fixpoint first_listed (order : list str) (enc_list : str) : option str :=
  match order with
  | [] => None
  | name :: rest =>
      if contains name enc_list then Some name else first_listed rest enc_list
  end.

Section Recorder.

(** [str.lower]. *)
Variable lower : str -> str.

(** [_pick_encoder]; [encoders] is the output of [ffmpeg -encoders], [None]
    when running it raised. *)
Definition _pick_encoder (encoders : option str) (pref : str) : dict :=
  let enc_list := match encoders with Some out => out | None => [] end in
  let order :=
    if str_eqb (lower pref) (lit "hevc") then hevc_order else h264_order in
  match first_listed order enc_list with
  | Some name => [(lit "name", JStr name)]
  | None =>
      [(lit "name",
        JStr (if str_eqb (lower pref) (lit "hevc") then lit "libx265"
              else lit "libx264"))]
  end.

(** ** [_auto_screen_index_mac] *)

(** [pat.search(line)] and [pat_alt.search(line)], each with the two groups
    of a match converted by [int]. *)
Variable pat_search : str -> option (Z * Z).
Variable pat_alt_search : str -> option (Z * Z).

Definition video_header : str := lit "AVFoundation video devices:".
Definition audio_header : str := lit "AVFoundation audio devices:".

(** The first loop: the lines kept in [video_section], with [capture] as it
    stands in front of [lines]. *)
Fixpoint video_section_from (capture : bool) (lines : list str) : list str :=
  match lines with
  | [] => []
  | line :: rest =>
      if contains video_header line then video_section_from true rest
      else if contains audio_header line then []
      else if capture then line :: video_section_from capture rest
      else video_section_from capture rest
  end.

(** The loops that collect [(dev_idx, screen_num)] for a pattern. *)
Fixpoint collect (search : str -> option (Z * Z)) (lines : list str)
  : list (Z * Z) :=
  match lines with
  | [] => []
  | line :: rest =>
      match search line with
      | Some m => m :: collect search rest
      | None => collect search rest
      end
  end.

(** [for dev_idx, screen_num in matches: if screen_num == 0: return dev_idx] *)
Fixpoint first_screen_0 (matches : list (Z * Z)) : option Z :=
  match matches with
  | [] => None
  | (dev_idx, screen_num) :: rest =>
      if screen_num =? 0 then Some dev_idx else first_screen_0 rest
  end.

(** [_auto_screen_index_mac]; [listing] is the device listing that ffmpeg
    prints, [None] when running it raised. *)
Definition _auto_screen_index_mac (listing : option str) : result Z :=
  match listing with
  | None => Raise RuntimeError
  | Some text =>
      let video_section := video_section_from false (splitlines text) in
      let matches := collect pat_search video_section in
      let matches :=
        match matches with
        | [] => collect pat_alt_search video_section
        | _ :: _ => matches
        end in
      match matches with
      | [] => Raise RuntimeError
      | (dev0, _) :: _ =>
          match first_screen_0 matches with
          | Some dev_idx => Ok dev_idx
          | None => Ok dev0
          end
      end
  end.

End Recorder.

End Video.

(* ================================================================== *)
(** * Facts about strings and dicts *)
(* ================================================================== *)

Module PyFacts.
Import Py.

Lemma str_eqb_eq (a b : str) : str_eqb a b = true <-> a = b.
Proof.
  unfold str_eqb. destruct (list_eq_dec N.eq_dec a b); split; congruence.
Qed.

Lemma str_eqb_refl (a : str) : str_eqb a a = true.
Proof. now apply str_eqb_eq. Qed.

Lemma str_eqb_neq (a b : str) : str_eqb a b = false <-> a <> b.
Proof.
  unfold str_eqb. destruct (list_eq_dec N.eq_dec a b); split; congruence.
Qed.

Lemma dict_get_pop_other (d : dict) (k k' : str) :
  k <> k' -> dict_get (dict_pop d k) k' = dict_get d k'.
Proof.
  intros Hne. induction d as [|[k0 v0] d IH]; simpl; auto.
  destruct (str_eqb k0 k) eqn:E; simpl.
  - apply str_eqb_eq in E. subst k0.
    apply str_eqb_neq in Hne. now rewrite Hne.
  - now rewrite IH.
Qed.

Lemma dict_get_set_same (d : dict) (k : str) (v : json) :
  dict_get (dict_set d k v) k = Some v.
Proof.
  induction d as [|[k' v'] d IH]; simpl.
  - now rewrite str_eqb_refl.
  - destruct (str_eqb k' k) eqn:E; simpl; rewrite E; auto.
Qed.

Lemma dict_get_set_other (d : dict) (k k' : str) (v : json) :
  k <> k' -> dict_get (dict_set d k v) k' = dict_get d k'.
Proof.
  intros Hne. induction d as [|[k0 v0] d IH]; simpl.
  - apply str_eqb_neq in Hne. now rewrite Hne.
  - destruct (str_eqb k0 k) eqn:E; simpl.
    + apply str_eqb_eq in E. subst k0.
      apply str_eqb_neq in Hne. now rewrite Hne.
    + now rewrite IH.
Qed.

End PyFacts.

(* ================================================================== *)
(** * Facts about binary64 comparisons *)
(* ================================================================== *)

Module FloatOrder.
Local Open Scope float_scope.

Lemma SFcompare_antisym (x y : spec_float) :
  SFcompare y x = option_map CompOpp (SFcompare x y).
Proof.
  destruct x as [sx|sx| |sx mx ex], y as [sy|sy| |sy my ey]; simpl;
    try reflexivity;
    try (destruct sx; reflexivity);
    try (destruct sy; reflexivity);
    try (destruct sx, sy; reflexivity).
  destruct sx, sy; try reflexivity;
    rewrite (Z.compare_antisym ex ey);
    destruct (ex ?= ey)%Z; simpl; try reflexivity;
    pose proof (Pos.compare_cont_antisym mx my Eq) as H; simpl in H;
    rewrite <- H; now rewrite ?CompOpp_involutive.
Qed.

(** [a <= b] rules out [b < a]. *)
Lemma leb_not_ltb (a b : float) : (a <=? b) = true -> (b <? a) = false.
Proof.
  rewrite leb_spec, ltb_spec. unfold SFleb, SFltb.
  rewrite (SFcompare_antisym (Prim2SF a) (Prim2SF b)).
  destruct (SFcompare (Prim2SF a) (Prim2SF b)) as [[| |]|]; simpl; congruence.
Qed.

(** ** Results that are numbers *)

Section Rounding.

Variables prec emax : Z.

Lemma iter_pos_keeps {A} (P : A -> Prop) (f : A -> A) :
  (forall x, P x -> P (f x)) -> forall n x, P x -> P (iter_pos f n x).
Proof.
  intros Hf. induction n as [n IH|n IH|]; intros x Hx; simpl; auto.
Qed.

Lemma shr_1_nonneg (mrs : shr_record) :
  (0 <= shr_m mrs)%Z -> (0 <= shr_m (shr_1 mrs))%Z.
Proof.
  destruct mrs as [m r s]. simpl. intros H.
  destruct m as [|[p|p|]|p]; simpl; lia.
Qed.

Lemma shr_fexp_nonneg (m e : Z) (l : location) :
  (0 <= m)%Z -> (0 <= shr_m (fst (shr_fexp prec emax m e l)))%Z.
Proof.
  intros H. unfold shr_fexp, shr.
  assert (H0 : (0 <= shr_m (shr_record_of_loc m l))%Z)
    by (destruct l as [|[| |]]; exact H).
  destruct (fexp prec emax (Zdigits2 m + e) - e)%Z; simpl; auto.
  apply (iter_pos_keeps (fun x => (0 <= shr_m x)%Z)); auto using shr_1_nonneg.
Qed.

Lemma round_nearest_even_nonneg (m : Z) (l : location) :
  (0 <= m)%Z -> (0 <= round_nearest_even m l)%Z.
Proof.
  intros H. destruct l as [|[| |]]; simpl; try lia.
  destruct (Z.even m); lia.
Qed.

(** Rounding a non-negative mantissa never yields a NaN. *)
Lemma binary_round_aux_number (s : bool) (m e : Z) (l : location) :
  (0 <= m)%Z -> binary_round_aux prec emax s m e l <> S754_nan.
Proof.
  intros H. unfold binary_round_aux.
  pose proof (shr_fexp_nonneg m e l H) as H1.
  destruct (shr_fexp prec emax m e l) as [mrs' e']. simpl in H1.
  pose proof (shr_fexp_nonneg _ e' loc_Exact
                (round_nearest_even_nonneg _ (loc_of_shr_record mrs') H1)) as H2.
  destruct (shr_fexp prec emax _ e' loc_Exact) as [mrs'' e'']. simpl in H2.
  destruct (shr_m mrs'') as [|p|p]; try discriminate; [|lia].
  destruct (e'' <=? emax - prec)%Z; discriminate.
Qed.

Lemma SFdiv_finite_number (sx sy : bool) (mx my : positive) (ex ey : Z) :
  SFdiv prec emax (S754_finite sx mx ex) (S754_finite sy my ey) <> S754_nan.
Proof.
  unfold SFdiv, SFdiv_core_binary.
  set (m' := match (_ - _ - _)%Z with Zpos _ => _ | Z0 => _ | Zneg _ => _ end).
  assert (Hm : (0 <= m')%Z).
  { unfold m'. destruct (_ - _ - _)%Z; try lia. apply Z.shiftl_nonneg. lia. }
  pose proof (Z.div_pos m' (Zpos my) Hm eq_refl) as Hq.
  unfold Z.div in Hq.
  destruct (Z.div_eucl m' (Zpos my)) as [q r]. simpl in Hq.
  now apply binary_round_aux_number.
Qed.

Lemma SFsub_finite_number (sx sy : bool) (mx my : positive) (ex ey : Z) :
  SFsub prec emax (S754_finite sx mx ex) (S754_finite sy my ey) <> S754_nan.
Proof.
  unfold SFsub.
  match goal with
  | |- binary_normalize _ _ ?z _ _ <> _ => destruct z as [|p|p]
  end; simpl; try discriminate;
    unfold binary_round;
    match goal with
    | |- context [shl_align ?m ?e ?e'] => destruct (shl_align m e e') as [mz ez]
    end;
    apply binary_round_aux_number; lia.
Qed.

End Rounding.

Lemma is_nan_false (f : float) : is_nan f = false <-> Prim2SF f <> S754_nan.
Proof.
  unfold is_nan. rewrite eqb_spec. unfold SFeqb.
  destruct (Prim2SF f) as [s|s| |s m e]; simpl.
  - split; [discriminate|reflexivity].
  - destruct s; split; (discriminate || reflexivity).
  - split; [discriminate|congruence].
  - rewrite Z.compare_refl, Pos.compare_cont_refl.
    destruct s; simpl; split; (discriminate || reflexivity).
Qed.

(** A positive number of milliseconds is a number of seconds. *)
Lemma div_1000_number (x : float) : (0 <? x) = true -> is_nan (x / 1000) = false.
Proof.
  intros H. apply is_nan_false. rewrite div_spec.
  rewrite ltb_spec in H. unfold SFltb in H.
  let v := eval vm_compute in (Prim2SF 0) in change (Prim2SF 0) with v in H.
  let v := eval vm_compute in (Prim2SF 1000) in change (Prim2SF 1000) with v.
  unfold SF64div.
  destruct (Prim2SF x) as [s|[|]| |[|] m e]; simpl in H; try discriminate H.
  - simpl. discriminate.
  - apply SFdiv_finite_number.
Qed.

Lemma is_finite_cases (x : float) :
  is_finite x = true ->
  (exists s, Prim2SF x = S754_zero s) \/
  (exists s m e, Prim2SF x = S754_finite s m e).
Proof.
  unfold is_finite, is_infinity. intros H.
  apply negb_true_iff, orb_false_iff in H. destruct H as [Hn Hi].
  apply is_nan_false in Hn.
  rewrite eqb_spec, abs_spec in Hi. unfold SFeqb in Hi.
  let v := eval vm_compute in (Prim2SF infinity) in
  change (Prim2SF infinity) with v in Hi.
  destruct (Prim2SF x) as [s|s| |s m e]; simpl in Hi; try discriminate Hi.
  - left. now exists s.
  - now contradiction Hn.
  - right. now exists s, m, e.
Qed.

(** The difference of two finite numbers is a number (possibly infinite). *)
Lemma sub_finite_number (x y : float) :
  is_finite x = true -> is_finite y = true -> is_nan (x - y) = false.
Proof.
  intros Hx Hy. apply is_nan_false. rewrite sub_spec. unfold SF64sub.
  destruct (is_finite_cases x Hx) as [[sx ->]|(sx & mx & ex & ->)],
           (is_finite_cases y Hy) as [[sy ->]|(sy & my & ey & ->)].
  - destruct sx, sy; simpl; discriminate.
  - simpl. discriminate.
  - simpl. discriminate.
  - apply SFsub_finite_number.
Qed.

(** Between numbers, [not (a < b)] is [b <= a]. *)
Lemma not_ltb_leb (a b : float) :
  (a <? b) = false -> is_nan a = false -> is_nan b = false ->
  (b <=? a) = true.
Proof.
  rewrite leb_spec, ltb_spec. unfold SFleb, SFltb.
  intros H Ha Hb. apply is_nan_false in Ha. apply is_nan_false in Hb.
  rewrite (SFcompare_antisym (Prim2SF a) (Prim2SF b)).
  assert (Hc : SFcompare (Prim2SF a) (Prim2SF b) <> None).
  { destruct (Prim2SF a), (Prim2SF b); simpl; congruence. }
  destruct (SFcompare (Prim2SF a) (Prim2SF b)) as [[| |]|]; simpl; congruence.
Qed.

End FloatOrder.

(* ================================================================== *)
(** * Properties of the sinks *)
(* ================================================================== *)

Module SaveSpec.
Import Py PyFacts Save.

Lemma put_or_drop_ok {A} (q : Queue A) (x : A) :
  put_or_drop q x =
  Ok (if full q then q else mkQueue (maxsize q) (items q ++ [x])).
Proof.
  unfold put_or_drop, put_nowait. now destruct (full q).
Qed.

Lemma put_or_drop_bounded {A} (q : Queue A) (x : A) (q' : Queue A) :
  0 < maxsize q -> qsize q <= maxsize q ->
  put_or_drop q x = Ok q' -> maxsize q' = maxsize q /\ qsize q' <= maxsize q'.
Proof.
  intros Hpos Hle. rewrite put_or_drop_ok. intros [= <-].
  destruct (full q) eqn:F; [now split|].
  unfold full in F. apply andb_false_iff in F.
  unfold qsize in *. simpl. rewrite length_app. simpl.
  split; [reflexivity|]. destruct F as [F|F]; [apply Z.ltb_ge in F|apply Z.leb_gt in F]; lia.
Qed.

(** C6.  For every item and every state of either sink, [put] returns
    normally, never with an exception: the item is appended when a slot is
    free, and when the queue is at capacity the queue is left as it was, so
    the item being put is the one that is lost. *)
Theorem put_returns_and_drops_newest :
  forall (p : LogPump) (line : str) (w : JsonlWriter) (obj : dict),
    (exists p',
        LogPump_put p line = Ok p' /\
        pump_stop p' = pump_stop p /\
        maxsize (pump_q p') = maxsize (pump_q p) /\
        items (pump_q p') =
          if full (pump_q p) then items (pump_q p)
          else items (pump_q p) ++ [Some line]) /\
    (exists w',
        JsonlWriter_put w obj = Ok w' /\
        jsonl_stop w' = jsonl_stop w /\
        maxsize (jsonl_q w') = maxsize (jsonl_q w) /\
        items (jsonl_q w') =
          if full (jsonl_q w) then items (jsonl_q w)
          else items (jsonl_q w) ++ [Some obj]).
Proof.
  intros p line w obj. split.
  - unfold LogPump_put. rewrite put_or_drop_ok. simpl.
    eexists. split; [reflexivity|]. simpl.
    destruct (full (pump_q p)); auto.
  - unfold JsonlWriter_put. rewrite put_or_drop_ok. simpl.
    eexists. split; [reflexivity|]. simpl.
    destruct (full (jsonl_q w)); auto.
Qed.

End SaveSpec.

(* ================================================================== *)
(** * Properties of the capture pipeline *)
(* ================================================================== *)

Module CaptureSpec.
Import Py PyFacts Save Capture.
Local Open Scope py_scope.

Lemma redact_length (v : str) : (List.length (redact v) <= 120)%nat.
Proof.
  unfold redact. destruct (List.length v <=? 120)%nat eqn:E.
  - now apply Nat.leb_le.
  - rewrite length_app, length_firstn. cbn [List.length]. lia.
Qed.

Lemma redact_short (v : str) : (List.length v <= 120)%nat -> redact v = v.
Proof.
  intros H. unfold redact. apply Nat.leb_le in H. now rewrite H.
Qed.

Lemma redact_long (v : str) :
  (120 < List.length v)%nat -> redact v = firstn 117 v ++ [ellipsis].
Proof.
  intros H. unfold redact. apply Nat.leb_gt in H. now rewrite H.
Qed.

(** [normalize_ts] writes no key but ["ts"]. *)
Lemma normalize_ts_other (obj evt : dict) (k : str) :
  normalize_ts obj = Ok evt -> k <> lit "ts" -> dict_get evt k = dict_get obj k.
Proof.
  unfold normalize_ts. intros H Hk.
  assert (Hset : forall x, dict_get (dict_set obj (lit "ts") x) k = dict_get obj k)
    by (intros x; apply dict_get_set_other; congruence).
  destruct (get obj (lit "ts")); try (injection H as <-; reflexivity).
  - destruct (10000000000 <? z); [|injection H as <-; reflexivity].
    destruct (float_of_int z); simpl in H; [|discriminate].
    injection H as <-. apply Hset.
  - destruct (10000000000 <? f)%float; injection H as <-; auto.
Qed.

Section Pipeline.

Variable json_loads : str -> option json.
Variable json_dumps : dict -> str.
Variable upper : str -> str.

(** What the two sinks hold after [_emit_event]: both are offered the same
    normalised copy. *)
Lemma emit_event_sinks (r r' : Recorder) (pid : str) (obj : dict) :
  _emit_event json_dumps r pid obj = Ok r' ->
  exists evt,
    normalize_ts obj = Ok evt /\
    items (jsonl_q (jsonl r')) =
      (if full (jsonl_q (jsonl r)) then items (jsonl_q (jsonl r))
       else items (jsonl_q (jsonl r)) ++ [Some evt]) /\
    items (pump_q (pump r')) =
      (if full (pump_q (pump r)) then items (pump_q (pump r))
       else items (pump_q (pump r))
              ++ [Some (tagged (lit "BROWSER_LOG") pid (json_dumps evt))]).
Proof.
  unfold _emit_event, pump_put, JsonlWriter_put, LogPump_put.
  destruct (normalize_ts obj) as [evt|e]; simpl; [|discriminate].
  rewrite !SaveSpec.put_or_drop_ok. simpl. intros [= <-]. simpl.
  exists evt. repeat split.
  - now destruct (full (jsonl_q (jsonl r))).
  - now destruct (full (pump_q (pump r))).
Qed.

Lemma get_set_same (d : dict) (k : str) (x : json) : get (dict_set d k x) k = x.
Proof. unfold get. now rewrite dict_get_set_same. Qed.

(** C5 (as amended).  Whatever [_emit_event] offers to the two sinks
    is one copy [evt] of the event in which only ["ts"] may differ: a float
    [ts <= 1e10] or an int [ts <= 10^10] is stored unchanged; a [ts] above
    that threshold is stored as [round(ts / 1000.0, 6)], a float of epoch
    seconds rounded to six decimals; the int 1700000000000 is stored as
    1700000000.0. *)
Theorem emit_event_stores_rounded_seconds :
  forall (r r' : Recorder) (pid : str) (obj : dict),
    _emit_event json_dumps r pid obj = Ok r' ->
    exists evt,
      (items (jsonl_q (jsonl r')) =
         (if full (jsonl_q (jsonl r)) then items (jsonl_q (jsonl r))
          else items (jsonl_q (jsonl r)) ++ [Some evt]) /\
       items (pump_q (pump r')) =
         (if full (pump_q (pump r)) then items (pump_q (pump r))
          else items (pump_q (pump r))
                 ++ [Some (tagged (lit "BROWSER_LOG") pid (json_dumps evt))])) /\
      (forall k, k <> lit "ts" -> dict_get evt k = dict_get obj k) /\
      (forall f, get obj (lit "ts") = JFloat f ->
         (f <=? 10000000000)%float = true -> evt = obj) /\
      (forall f, get obj (lit "ts") = JFloat f ->
         (10000000000 <? f)%float = true ->
         get evt (lit "ts") = JFloat (round6 (f / 1000))) /\
      (forall z, get obj (lit "ts") = JInt z -> z <= 10000000000 -> evt = obj) /\
      (forall z, get obj (lit "ts") = JInt z -> 10000000000 < z ->
         exists f, float_of_int z = Ok f /\
                   get evt (lit "ts") = JFloat (round6 (f / 1000))) /\
      (get obj (lit "ts") = JInt 1700000000000 ->
         get evt (lit "ts") = JFloat 1700000000).
Proof.
  intros r r' pid obj H.
  destruct (emit_event_sinks _ _ _ _ H) as (evt & Hn & Hj & Hp).
  exists evt. split; [now split|].
  split; [intros k Hk; now apply (normalize_ts_other obj)|].
  unfold normalize_ts in Hn.
  repeat split.
  - intros f Hf Hle. rewrite Hf in Hn.
    apply FloatOrder.leb_not_ltb in Hle. rewrite Hle in Hn. congruence.
  - intros f Hf Hlt. rewrite Hf, Hlt in Hn. injection Hn as <-.
    apply get_set_same.
  - intros z Hz Hle. rewrite Hz in Hn.
    apply Z.ltb_ge in Hle. rewrite Hle in Hn. congruence.
  - intros z Hz Hlt. rewrite Hz in Hn.
    apply Z.ltb_lt in Hlt. rewrite Hlt in Hn.
    destruct (float_of_int z) as [f|e]; simpl in Hn; [|discriminate].
    exists f. split; [reflexivity|]. injection Hn as <-. apply get_set_same.
  - intros Hz. rewrite Hz in Hn. vm_compute in Hn. injection Hn as <-.
    apply get_set_same.
Qed.

Lemma get_pop_other (d : dict) (k k' : str) :
  k <> k' -> get (dict_pop d k) k' = get d k'.
Proof. intros H. unfold get. now rewrite dict_get_pop_other. Qed.

(** C9.  When [_on_console] accepts an event of type ["type"] or
    ["type_commit"] whose ["value"] is a string [v], the copy offered to the
    structured sink carries a string of at most 120 characters: [v] itself
    when [v] has at most 120 characters, and otherwise the first 117
    characters of [v] followed by the ellipsis character. *)
Theorem typed_value_at_most_120 :
  forall (r r' : Recorder) (pid : str) (msg : ConsoleMessage) (obj : dict)
         (v : str),
    hd_error (msg_text msg) = Some 123%N ->
    json_loads (msg_text msg) = Some (JObj obj) ->
    accepted (config r) obj = Ok true ->
    in_str_set (get obj (lit "type")) [lit "type"; lit "type_commit"] = Ok true ->
    get obj (lit "value") = JStr v ->
    _on_console json_loads json_dumps upper r pid msg = Ok r' ->
    exists evt v',
      items (jsonl_q (jsonl r')) =
        (if full (jsonl_q (jsonl r)) then items (jsonl_q (jsonl r))
         else items (jsonl_q (jsonl r)) ++ [Some evt]) /\
      get evt (lit "value") = JStr v' /\
      (List.length v' <= 120)%nat /\
      ((List.length v <= 120)%nat -> v' = v) /\
      ((120 < List.length v)%nat -> v' = firstn 117 v ++ [ellipsis]).
Proof.
  intros r r' pid msg obj v Hhd Hload Hacc Hty Hval Hrun.
  unfold _on_console in Hrun.
  destruct (msg_text msg) as [|c text] eqn:Etext; [discriminate|].
  injection Hhd as ->. simpl in Hrun.
  rewrite Hload, Hacc in Hrun. simpl in Hrun.
  assert (Hne1 : lit "__rec" <> lit "type") by (vm_compute; discriminate).
  assert (Hne2 : lit "__rec" <> lit "value") by (vm_compute; discriminate).
  unfold redact_value in Hrun.
  rewrite (get_pop_other obj _ _ Hne1), Hty in Hrun. simpl in Hrun.
  rewrite (get_pop_other obj _ _ Hne2), Hval in Hrun. simpl in Hrun.
  destruct (emit_event_sinks _ _ _ _ Hrun) as (evt & Hn & Hj & _).
  exists evt, (redact v). split; [exact Hj|]. split.
  - unfold get.
    rewrite (normalize_ts_other _ _ (lit "value") Hn)
      by (vm_compute; discriminate).
    now rewrite dict_get_set_same.
  - split; [apply redact_length|].
    split; [apply redact_short|apply redact_long].
Qed.

End Pipeline.

(** ** Concrete runs *)

Definition recorder0 : Recorder :=
  mkRecorder (mkConfig false [lit "click"; lit "type"; lit "type_commit"])
             LogPump_init (JsonlWriter_init (lit "logs") (lit "a1b2c3d4_1700000000")).

Definition no_dumps (_ : dict) : str := [].

Definition same_case (s : str) : str := s.

(** A typed-text event whose value has 130 characters. *)
Definition long_typed : dict :=
  [(lit "__rec", JInt 1); (lit "type", JStr (lit "type"));
   (lit "ts", JInt 1700000000000); (lit "value", JStr (repeat 97%N 130))].

Definition loads_long_typed (_ : str) : option json := Some (JObj long_typed).

Lemma typed_value_at_most_120_witness :
  exists r' evt,
    _on_console loads_long_typed no_dumps same_case recorder0 (lit "p1")
                (mkMsg (lit "log") (lit "{}")) = Ok r' /\
    items (jsonl_q (jsonl r')) = [Some evt] /\
    get evt (lit "value") = JStr (repeat 97%N 117 ++ [ellipsis]).
Proof.
  destruct (_on_console loads_long_typed no_dumps same_case recorder0 (lit "p1")
              (mkMsg (lit "log") (lit "{}"))) as [r'|e] eqn:E;
    [|vm_compute in E; discriminate].
  destruct (typed_value_at_most_120 loads_long_typed no_dumps same_case
              recorder0 r' (lit "p1") (mkMsg (lit "log") (lit "{}"))
              long_typed (repeat 97%N 130)
              eq_refl eq_refl eq_refl eq_refl eq_refl E)
    as (evt & v' & Hq & Hv & _ & _ & Hlong).
  exists r', evt. split; [reflexivity|]. split; [exact Hq|].
  rewrite Hv, Hlong; [reflexivity|]. rewrite repeat_length. lia.
Defined.

Definition ms_event : dict := [(lit "ts", JInt 1700000000000)].

Lemma emit_event_stores_rounded_seconds_witness :
  exists r' evt,
    _emit_event no_dumps recorder0 (lit "p1") ms_event = Ok r' /\
    items (jsonl_q (jsonl r')) = [Some evt] /\
    get evt (lit "ts") = JFloat 1700000000.
Proof.
  destruct (_emit_event no_dumps recorder0 (lit "p1") ms_event) as [r'|e] eqn:E;
    [|vm_compute in E; discriminate].
  destruct (emit_event_stores_rounded_seconds no_dumps recorder0 r' (lit "p1")
              ms_event E)
    as (evt & [Hq _] & _ & _ & _ & _ & _ & Hex).
  exists r', evt. split; [reflexivity|]. split; [exact Hq|].
  apply Hex. reflexivity.
Defined.

(** A timestamp in epoch milliseconds with a fraction finer than a
    microsecond of a second: what is stored is not [ts / 1000]. *)
Definition fine_ts : float := 1700000000123.4567%float.

Lemma fine_timestamp_is_not_stored_as_quotient :
  (10000000000 <? fine_ts)%float = true /\
  (exists r',
      _emit_event no_dumps recorder0 (lit "p1") [(lit "ts", JFloat fine_ts)]
        = Ok r' /\
      items (jsonl_q (jsonl r'))
        = [Some [(lit "ts", JFloat 1700000000.123457%float)]]) /\
  (fine_ts / 1000 =? 1700000000.123457)%float = false /\
  JFloat 1700000000.123457%float <> JFloat (fine_ts / 1000)%float.
Proof.
  split; [reflexivity|]. split.
  - eexists. split; [vm_compute; reflexivity|reflexivity].
  - split; [reflexivity|].
    intros H.
    apply (f_equal (fun j => match j with
                             | JFloat f => (fine_ts / 1000 =? f)%float
                             | _ => true
                             end)) in H.
    vm_compute in H. discriminate.
Qed.

End CaptureSpec.

(* ================================================================== *)
(** * Properties of the clock correlation *)
(* ================================================================== *)

Module AnchorSpec.
Import Py PyFacts ParserMac.
Local Open Scope py_scope.

Section Anchor.

Variable unicode_word : char -> bool.

(** The character in front of position [i] of [s] when [prev] stands in
    front of [s]. *)
Definition before (prev : option char) (s : str) (i : nat) : option char :=
  match i with
  | O => prev
  | S j => nth_error s j
  end.

Lemma scan_no_match (s : str) :
  forall (prev : option char) (skip : nat),
    (forall i, match_at unicode_word (before prev s i) (skipn i s) = None) ->
    scan unicode_word prev skip s = [].
Proof.
  induction s as [|c s IH]; intros prev skip H; [reflexivity|].
  assert (Hs : forall i,
             match_at unicode_word (before (Some c) s i) (skipn i s) = None).
  { intros i. specialize (H (S i)). destruct i; exact H. }
  simpl. destruct skip as [|k].
  - specialize (H 0%nat). simpl in H. rewrite H. now apply IH.
  - now apply IH.
Qed.

(** [finditer] finds nothing exactly when the pattern matches at no
    position. *)
Lemma scan_nil_no_match (s : str) :
  forall (prev : option char),
    scan unicode_word prev 0 s = [] ->
    forall i, match_at unicode_word (before prev s i) (skipn i s) = None.
Proof.
  induction s as [|c s IH]; intros prev H i.
  - unfold match_at. destruct i; simpl;
      match goal with
      | |- (if ?b then _ else _) = _ => destruct b; reflexivity
      end.
  - simpl in H.
    destruct (match_at unicode_word prev (c :: s)) as [[[ip fp] n]|] eqn:E;
      [discriminate|].
    destruct i as [|i]; [exact E|].
    specialize (IH (Some c) H i). destruct i; exact IH.
Qed.

(** A log without a marker yields no start time, whatever the policy. *)
Lemma extract_none (text prefer : str) :
  (forall i, match_at unicode_word (before None text i) (skipn i text) = None) ->
  extract_ffmpeg_start_ts unicode_word text prefer = None.
Proof.
  intros H. unfold extract_ffmpeg_start_ts, finditer.
  rewrite (scan_no_match text None 0 H). simpl.
  now destruct (str_eqb prefer (lit "first")).
Qed.

(** C1.  With [host_now] the host clock sample and [time_time c] the wall
    clock sample of the query, the anchor for a marker [m] is
    [(wall_now - host_now) + m]; for the marker 12.345, the wall clock at
    1700000100.0 and the host clock at 12.5 it lies within a microsecond of
    1700000099.845, and [12.345] is what the log line of the scenario
    yields under the policy ["last"]. *)
Theorem anchor_is_wall_minus_host_plus_marker :
  forall (c : Clock) (host_now m : float),
    host_time_seconds_now c = Ok host_now ->
    host_seconds_to_epoch c m = Ok (time_time c - host_now + m)%float /\
    (time_time c = 1700000100%float -> host_now = 12.5%float ->
     m = 12.345%float ->
     exists anchor,
       host_seconds_to_epoch c m = Ok anchor /\
       (abs (anchor - 1700000099.845) <=? 0.000001)%float = true) /\
    extract_ffmpeg_start_ts unicode_word
      (lit "  Duration: N/A, start: 12.345000, bitrate: N/A") (lit "last")
      = Some 12.345%float.
Proof.
  intros c host_now m H.
  assert (E : host_seconds_to_epoch c m = Ok (time_time c - host_now + m)%float).
  { unfold host_seconds_to_epoch. rewrite H. reflexivity. }
  split; [exact E|]. split.
  - intros Hw Hh Hm. eexists. split; [exact E|].
    rewrite Hw, Hh, Hm. reflexivity.
  - vm_compute. reflexivity.
Qed.

(** C8.  Two computations of the anchor from the same log and policy read
    the same marker, or both fail for want of one, and each adds it to the
    clock offset [wall_now - host_now] of its own query; they end alike, and
    with the same anchor, when the clock samples of the two queries show
    the same offset. *)
Theorem anchor_recomputed_is_same :
  forall (text prefer : str) (c1 c2 : Clock) (h1 h2 : float),
    host_time_seconds_now c1 = Ok h1 ->
    host_time_seconds_now c2 = Ok h2 ->
    match extract_ffmpeg_start_ts unicode_word text prefer with
    | Some m =>
        video_start_epoch unicode_word text prefer c1
          = Ok ((time_time c1 - h1) + m)%float /\
        video_start_epoch unicode_word text prefer c2
          = Ok ((time_time c2 - h2) + m)%float
    | None =>
        video_start_epoch unicode_word text prefer c1 = Raise RuntimeError /\
        video_start_epoch unicode_word text prefer c2 = Raise RuntimeError
    end /\
    ((time_time c1 - h1 = time_time c2 - h2)%float ->
     video_start_epoch unicode_word text prefer c1
     = video_start_epoch unicode_word text prefer c2).
Proof.
  intros text prefer c1 c2 h1 h2 H1 H2.
  unfold video_start_epoch.
  destruct (extract_ffmpeg_start_ts unicode_word text prefer) as [m|];
    [|repeat split].
  unfold host_seconds_to_epoch. rewrite H1, H2. cbn [bind].
  repeat split. intros Hoff. now rewrite Hoff.
Qed.

End Anchor.

Definition ascii_only (_ : char) : bool := false.

(** The clock of the scenario: the wall clock at 1700000100.0 and the host
    clock, counting nanoseconds, at 12.5 s. *)
Definition scenario_clock : Clock := mkClock 1700000100 0 1 1 12500000000.

(** The same instant, forty seconds later on both clocks. *)
Definition later_clock : Clock := mkClock 1700000140 0 1 1 52500000000.

Lemma anchor_is_wall_minus_host_plus_marker_witness :
  host_seconds_to_epoch scenario_clock 12.345 = Ok 1700000099.845%float.
Proof.
  destruct (anchor_is_wall_minus_host_plus_marker ascii_only scenario_clock
              12.5%float 12.345%float eq_refl) as [E _].
  rewrite E. reflexivity.
Defined.

Lemma anchor_recomputed_is_same_witness :
  video_start_epoch ascii_only (lit "start: 1.5 start: 12.345000") (lit "last")
    later_clock = Ok 1700000099.845%float.
Proof.
  rewrite <- (proj2 (anchor_recomputed_is_same ascii_only
                       (lit "start: 1.5 start: 12.345000") (lit "last")
                       scenario_clock later_clock 12.5%float 52.5%float
                       eq_refl eq_refl) eq_refl).
  vm_compute. reflexivity.
Defined.

(** A query fifty seconds later by the wall clock, across a sleep of the
    machine during which the host clock stood still for ten seconds. *)
Definition clock_after_sleep : Clock := mkClock 1700000150 0 1 1 52500000000.

(** A query forty seconds later in which the host clock is read one
    microsecond later than the wall clock. *)
Definition clock_with_jitter : Clock := mkClock 1700000140 0 1 1 52500001000.

(** The same log and policy, three queries: across the sleep the anchor is
    ten seconds off, and one microsecond between the two clock readings
    already moves it by more than two units in its last place. *)
Lemma anchor_moves_with_the_clocks :
  video_start_epoch ascii_only (lit "start: 1.5 start: 12.345000") (lit "last")
    scenario_clock = Ok 1700000099.845%float
  /\ video_start_epoch ascii_only (lit "start: 1.5 start: 12.345000")
       (lit "last") clock_after_sleep = Ok 1700000109.845%float
  /\ (abs (1700000109.845 - 1700000099.845) <=? 1)%float = false
  /\ video_start_epoch ascii_only (lit "start: 1.5 start: 12.345000")
       (lit "last") clock_with_jitter = Ok 1700000099.8449991%float
  /\ (abs (1700000099.8449991 - 1700000099.845) <=? 0x1p-21)%float = false.
Proof. vm_compute. repeat split. Qed.

End AnchorSpec.

(* ================================================================== *)
(** * Properties of the frame reconciliation *)
(* ================================================================== *)

Module ReconcileSpec.
Import Py PyFacts ParserMac.
Local Open Scope py_scope.

(** ** Lists grown at their end *)

Section Snoc.

Context {A : Type}.

Definition final (l : list A) : option A := hd_error (rev l).

Lemma final_snoc (l : list A) (x : A) : final (l ++ [x]) = Some x.
Proof. unfold final. now rewrite rev_app_distr. Qed.

Lemma final_cons (a : A) (l : list A) (x : A) :
  final l = Some x -> final (a :: l) = Some x.
Proof.
  unfold final. simpl. destruct (rev l); simpl; congruence.
Qed.

Lemma nth_error_snoc (l : list A) (x y : A) (k : nat) :
  nth_error (l ++ [x]) k = Some y ->
  nth_error l k = Some y \/ (k = List.length l /\ y = x).
Proof.
  intros H. destruct (Nat.lt_ge_cases k (List.length l)) as [Hk|Hk].
  - left. now rewrite nth_error_app1 in H.
  - right. rewrite nth_error_app2 in H by exact Hk.
    destruct (k - List.length l)%nat as [|n] eqn:E; simpl in H.
    + split; [lia|congruence].
    + destruct n; discriminate.
Qed.

Variable R : A -> A -> Prop.

Lemma Sorted_snoc (l : list A) (x : A) :
  Sorted R l -> (forall y, final l = Some y -> R y x) -> Sorted R (l ++ [x]).
Proof.
  induction l as [|a l IH]; intros Hs Hf; simpl.
  - repeat constructor.
  - inversion Hs as [|? ? Hs' Hhd]; subst. constructor.
    + apply IH; [exact Hs'|]. intros y Hy. apply Hf. now apply final_cons.
    + destruct l as [|b l]; simpl.
      * constructor. now apply Hf.
      * inversion Hhd; subst. now constructor.
Qed.

Lemma Sorted_consecutive (l : list A) :
  Sorted R l ->
  forall k x y, nth_error l k = Some x -> nth_error l (S k) = Some y -> R x y.
Proof.
  induction 1 as [|a l Hs IH Hhd]; intros k x y Hx Hy.
  - destruct k; discriminate.
  - destruct k as [|k]; simpl in Hx, Hy.
    + injection Hx as <-. destruct l as [|b l]; [discriminate|].
      simpl in Hy. injection Hy as <-. now inversion Hhd.
    + now apply (IH k).
Qed.

End Snoc.

(** ** The loop *)

Section Reconcile.

Variable unicode_word : char -> bool.
Variable json_loads : str -> result json.
Variable float_of_str : str -> option float.
Variable py_str : json -> str.
Variable path_resolve : str -> str.
Variable w : World.
Variable a : Args.

(** [ev.get("type", "event")] *)
Definition event_type (d : dict) : json :=
  get_default d (lit "type") (JStr (lit "event")).

Definition frame_path (cnt : Z) (d : dict) (ms : Z) : str :=
  images_dir w ++ lit "/" ++ frame_name py_str a cnt (event_type d) ms.

Section Loop.

(** The records the loop runs over, and the anchor. *)
Variable all : list json.
Variable anchor : float.

Definition step_ := step float_of_str py_str path_resolve w a anchor.
Definition loop_ := loop float_of_str py_str path_resolve w a anchor.

(** [r] is a line the loop may write: what it says of the record it comes
    from and of the tests that record passed. *)
Definition Kept (r : Written) : Prop :=
  exists d ts ms,
    nth_error all (w_index r) = Some (JObj d) /\
    sanitize_ts float_of_str (get d (lit "ts")) = Ok (Some ts) /\
    (ts <? anchor)%float = false /\
    excluded a (event_type d) = Ok false /\
    w_rel r = ((ts - anchor) + offset_s a)%float /\
    (w_rel r <? 0)%float = false /\
    int_of_float (ts * 1000)%float = Ok ms /\
    extract_frame_ok w (w_index r) (w_rel r) (frame_path (w_counter r) d ms)
      = true /\
    w_out r = dict_set d (lit "frame_path")
                (JStr (path_resolve (frame_path (w_counter r) d ms))).

(** Two lines written one after the other. *)
Definition Next (r1 r2 : Written) : Prop :=
  (w_index r1 < w_index r2)%nat /\
  w_counter r2 = w_counter r1 + 1 /\
  (w_rel r2 - w_rel r1 <? min_gap_s a)%float = false.

(** The relative time of the last line written, [-inf] before the first. *)
Definition tracked (l : list Written) : float :=
  match final l with
  | Some r => w_rel r
  | None => neg_infinity
  end.

(** The state of the loop in front of the [i]-th record. *)
Record Inv (i : nat) (st : Loop) : Prop := mkInv {
  inv_counter : counter st = Z.of_nat (List.length (fout st)) + 1;
  inv_last : last_rel st = tracked (fout st);
  inv_final : forall y, final (fout st) = Some y ->
                w_counter y + 1 = counter st /\ (w_index y < i)%nat;
  inv_kept : forall k r, nth_error (fout st) k = Some r ->
               w_counter r = Z.of_nat k + 1 /\ (w_index r < i)%nat /\ Kept r;
  inv_next : Sorted Next (fout st)
}.

Lemma step_cases (st st' : Loop) (i : nat) (ev : json) :
  step_ st i ev = Ok st' ->
  st' = st \/
  exists r,
    w_index r = i /\ w_counter r = counter st /\
    (exists p, extract_frame_ok w i (w_rel r) p = true) /\
    (nth_error all i = Some ev -> Kept r) /\
    (w_rel r - last_rel st <? min_gap_s a)%float = false /\
    st' = mkLoop (counter st + 1) (w_rel r) (fout st ++ [r]).
Proof.
  intros H. unfold step_, step in H.
  destruct ev as [| | | | | |d]; try discriminate.
  destruct (sanitize_ts float_of_str (get d (lit "ts"))) as [[ts|]|] eqn:Ets;
    cbn [bind] in H; try discriminate; [|left; congruence].
  destruct (ts <? anchor)%float eqn:Eanchor; [left; congruence|].
  destruct (excluded a (get_default d (lit "type") (JStr (lit "event"))))
    as [[|]|] eqn:Eex; cbn [bind] in H; try discriminate; [left; congruence|].
  destruct (ts - anchor + offset_s a <? 0)%float eqn:Eneg; [left; congruence|].
  destruct (ts - anchor + offset_s a - last_rel st <? min_gap_s a)%float eqn:Egap;
    [left; congruence|].
  destruct (int_of_float (ts * 1000)%float) as [ms|] eqn:Ems; cbn [bind] in H;
    try discriminate.
  match type of H with
  | (if ?c then _ else _) = _ => destruct c eqn:Eok; [|left; congruence]
  end.
  match type of H with
  | match ?c with _ => _ end = _ => destruct c; [discriminate|]
  end.
  right. injection H as <-.
  exists (mkWritten i (counter st) (ts - anchor + offset_s a)%float
            (dict_set d (lit "frame_path")
               (JStr (path_resolve (frame_path (counter st) d ms))))).
  cbn [w_index w_counter w_rel w_out].
  split; [reflexivity|]. split; [reflexivity|].
  split; [eexists; exact Eok|]. split.
  - intros Hev. exists d, ts, ms. unfold frame_path, event_type.
    cbn [w_index w_counter w_rel w_out].
    repeat split; assumption || reflexivity.
  - split; [exact Egap|reflexivity].
Qed.

Lemma Inv_init : Inv 0 loop_init.
Proof.
  constructor; simpl; try reflexivity.
  - intros y H. discriminate.
  - intros k r H. destruct k; discriminate.
  - constructor.
Qed.

Lemma Inv_step (st st' : Loop) (i : nat) (ev : json) :
  Inv i st -> nth_error all i = Some ev -> step_ st i ev = Ok st' ->
  Inv (S i) st'.
Proof.
  intros [Hc Hl Hf Hk Hn] Hev H.
  destruct (step_cases st st' i ev H)
    as [->|(r & Hi & Hcnt & _ & Hkept & Hgap & ->)].
  - constructor; auto.
    + intros y Hy. destruct (Hf y Hy). split; auto.
    + intros k r Hr. destruct (Hk k r Hr) as (? & ? & ?). repeat split; auto.
  - constructor; cbn [counter last_rel fout].
    + rewrite length_app, Hc. simpl. lia.
    + unfold tracked. now rewrite final_snoc.
    + intros y Hy. rewrite final_snoc in Hy. injection Hy as <-.
      split; lia.
    + intros k x Hx. apply nth_error_snoc in Hx.
      destruct Hx as [Hx|[-> ->]].
      * destruct (Hk k x Hx) as (? & ? & ?). repeat split; auto.
      * repeat split; [lia|lia|now apply Hkept].
    + apply Sorted_snoc; [exact Hn|]. intros y Hy.
      destruct (Hf y Hy) as [Hyc Hyi].
      assert (Hlast : last_rel st = w_rel y).
      { rewrite Hl. unfold tracked. now rewrite Hy. }
      repeat split; [lia|lia|now rewrite <- Hlast].
Qed.

(** The loop keeps the invariant, whether it runs to the end of the log or
    is ended by an exception. *)
Lemma loop_Inv (evs : list json) :
  forall (pre : list json) (st : Loop),
    all = pre ++ evs -> Inv (List.length pre) st ->
    exists j, Inv j (fst (loop_ st (List.length pre) evs)).
Proof.
  unfold loop_.
  induction evs as [|ev evs IH]; intros pre st Hall Hinv; cbn [loop].
  - now exists (List.length pre).
  - destruct (step float_of_str py_str path_resolve w a anchor st
                (List.length pre) ev) as [st'|e] eqn:E.
    + replace (S (List.length pre)) with (List.length (pre ++ [ev]))
        by (rewrite length_app; simpl; lia).
      apply IH.
      * now rewrite <- app_assoc.
      * rewrite length_app. simpl. rewrite Nat.add_1_r.
        apply (Inv_step st st' (List.length pre) ev Hinv); [|exact E].
        rewrite Hall, nth_error_app2, Nat.sub_diag by lia. reflexivity.
    + now exists (List.length pre).
Qed.

End Loop.

(** ** The run *)

(** The records [read_jsonl] yields. *)
Definition input_log : list json :=
  fst (read_jsonl json_loads (jsonl_lines w) (jsonl_error w)).

Definition main_ : Outcome :=
  main unicode_word json_loads float_of_str py_str path_resolve w a.

Definition anchor_ : result float :=
  video_start_epoch unicode_word (ffmpeg_log w) (prefer a) (clock w).

(** The output log of a run that opened it is what the loop wrote, from the
    first record on, under the anchor of the encoder log. *)
Lemma main_written (recs : list Written) :
  out_jsonl main_ = Some recs ->
  exists anchor j st,
    anchor_ = Ok anchor /\ Inv input_log anchor j st /\ recs = fout st.
Proof.
  unfold main_, main, anchor_.
  destruct (missing w); [discriminate|].
  destruct (images_mkdir w); [discriminate|].
  destruct (out_mkdir w); [discriminate|].
  destruct (log_read_error w); [discriminate|].
  destruct (video_start_epoch unicode_word (ffmpeg_log w) (prefer a) (clock w))
    as [anchor|e]; [|discriminate].
  destruct (ffmpeg_found w); [|discriminate].
  destruct (out_open w); [discriminate|].
  unfold reconcile.
  destruct (loop_Inv input_log anchor input_log [] loop_init eq_refl
              (Inv_init input_log anchor)) as [j Hj].
  unfold loop_, input_log in Hj. simpl List.length in Hj.
  unfold input_log.
  destruct (read_jsonl json_loads (jsonl_lines w) (jsonl_error w))
      as [evs stopped].
  cbn [fst] in Hj |- *.
  destruct (loop float_of_str py_str path_resolve w a anchor loop_init 0 evs)
    as [st e].
  simpl. intros [= <-]. now exists anchor, j, st.
Qed.

Lemma excluded_false (t : json) :
  excluded a t = Ok false ->
  forall l, include_set a = Some l -> exists s, t = JStr s /\ In s l.
Proof.
  unfold excluded. intros H l Hl. rewrite Hl in H.
  destruct t; simpl in H; try discriminate.
  injection H as H. apply negb_false_iff, existsb_exists in H.
  destruct H as (x & Hin & Hx). apply str_eqb_eq in Hx. subst x.
  now exists s.
Qed.

(** An event before the anchor, of a type outside the include-list, or at a
    negative relative time changes nothing. *)
Lemma step_discards (anchor : float) (st st' : Loop) (i : nat) (d : dict)
    (ts : float) :
  sanitize_ts float_of_str (get d (lit "ts")) = Ok (Some ts) ->
  (ts <? anchor)%float = true \/
  excluded a (event_type d) = Ok true \/
  (ts - anchor + offset_s a <? 0)%float = true \/
  (ts - anchor + offset_s a - last_rel st <? min_gap_s a)%float = true ->
  step_ anchor st i (JObj d) = Ok st' -> st' = st.
Proof.
  intros Hts Hc H. unfold step_, step in H. rewrite Hts in H. cbn [bind] in H.
  destruct (ts <? anchor)%float; [congruence|].
  fold (event_type d) in H.
  destruct (excluded a (event_type d)) as [[|]|]; cbn [bind] in H;
    try congruence.
  destruct (ts - anchor + offset_s a <? 0)%float; [congruence|].
  destruct (ts - anchor + offset_s a - last_rel st <? min_gap_s a)%float;
    [congruence|].
  destruct Hc as [Hc|[Hc|[Hc|Hc]]]; discriminate.
Qed.

(** C2.  Every line of the output log comes from an input record whose
    [ts] is not before the anchor and whose type passes the include-list
    when one is given; its relative time is [(ts - anchor) + offset] and is
    not negative.  An input record that fails one of these tests leaves the
    loop as it found it. *)
Theorem retained_only_after_anchor_and_listed :
  (forall (recs : list Written) (r : Written),
      out_jsonl main_ = Some recs -> In r recs ->
      exists anchor d ts,
        anchor_ = Ok anchor /\
        nth_error input_log (w_index r) = Some (JObj d) /\
        sanitize_ts float_of_str (get d (lit "ts")) = Ok (Some ts) /\
        (ts <? anchor)%float = false /\
        (forall l, include_set a = Some l ->
                   exists t, event_type d = JStr t /\ In t l) /\
        w_rel r = ((ts - anchor) + offset_s a)%float /\
        (w_rel r <? 0)%float = false) /\
  (forall (anchor : float) (st st' : Loop) (i : nat) (d : dict) (ts : float),
      sanitize_ts float_of_str (get d (lit "ts")) = Ok (Some ts) ->
      (ts <? anchor)%float = true \/
      excluded a (event_type d) = Ok true \/
      (ts - anchor + offset_s a <? 0)%float = true ->
      step_ anchor st i (JObj d) = Ok st' -> st' = st).
Proof.
  split.
  - intros recs r Hout Hin.
    destruct (main_written recs Hout) as (anchor & j & st & Ha & Hinv & ->).
    apply In_nth_error in Hin. destruct Hin as [k Hk].
    destruct (inv_kept _ _ _ _ Hinv k r Hk)
      as (_ & _ & d & ts & ms & Hd & Hts & Hge & Hex & Hrel & Hpos & _).
    exists anchor, d, ts. repeat split; auto.
    now apply excluded_false.
  - intros anchor st st' i d ts Hts Hc.
    apply (step_discards anchor st st' i d ts Hts). tauto.
Qed.

Lemma min_gap_s_number : is_nan (min_gap_s a) = false.
Proof.
  unfold min_gap_s. destruct (0 <? min_gap_ms a)%float eqn:E.
  - now apply FloatOrder.div_1000_number.
  - reflexivity.
Qed.

(** C3.  For two lines written one after the other, the test
    [rel_t - last_rel < min_gap_s] was false, so that their relative times
    are at least [min_gap_s] apart: [min_gap_s <= rel[i+1] - rel[i]] holds
    whenever that difference is a number, which it is when the two relative
    times are finite.  A candidate closer than [min_gap_s] to the last line
    written leaves the loop as it found it. *)
Theorem min_gap_between_retained :
  (forall (recs : list Written) (k : nat) (r1 r2 : Written),
      out_jsonl main_ = Some recs ->
      nth_error recs k = Some r1 -> nth_error recs (S k) = Some r2 ->
      (w_rel r2 - w_rel r1 <? min_gap_s a)%float = false /\
      (is_nan (w_rel r2 - w_rel r1) = false ->
       (min_gap_s a <=? w_rel r2 - w_rel r1)%float = true) /\
      (is_finite (w_rel r1) = true -> is_finite (w_rel r2) = true ->
       (min_gap_s a <=? w_rel r2 - w_rel r1)%float = true)) /\
  (forall (anchor : float) (evs : list json) (st' : Loop) (i : nat) (d : dict)
          (ts : float),
      let st := fst (loop_ anchor loop_init 0 evs) in
      sanitize_ts float_of_str (get d (lit "ts")) = Ok (Some ts) ->
      (ts - anchor + offset_s a - tracked (fout st) <? min_gap_s a)%float = true ->
      step_ anchor st i (JObj d) = Ok st' -> st' = st).
Proof.
  split.
  - intros recs k r1 r2 Hout H1 H2.
    destruct (main_written recs Hout) as (anchor & j & st & _ & Hinv & ->).
    destruct (Sorted_consecutive Next _ (inv_next _ _ _ _ Hinv) k r1 r2 H1 H2)
      as (_ & _ & Hgap).
    assert (Hnum : is_nan (w_rel r2 - w_rel r1) = false ->
                   (min_gap_s a <=? w_rel r2 - w_rel r1)%float = true).
    { intros Hn. apply FloatOrder.not_ltb_leb; auto using min_gap_s_number. }
    split; [exact Hgap|]. split; [exact Hnum|].
    intros Hf1 Hf2. now apply Hnum, FloatOrder.sub_finite_number.
  - intros anchor evs st' i d ts st Hts Hgap Hstep.
    destruct (loop_Inv evs anchor evs [] loop_init eq_refl (Inv_init evs anchor))
      as [j Hj].
    simpl List.length in Hj. fold st in Hj.
    apply (step_discards anchor st st' i d ts Hts); [|exact Hstep].
    right. right. right. now rewrite (inv_last _ _ _ _ Hj).
Qed.

Lemma Sorted_Next_index (l : list Written) :
  Sorted Next l -> Sorted lt (List.map w_index l).
Proof.
  induction 1 as [|r l Hs IH Hhd]; simpl; constructor; [exact IH|].
  destruct Hhd as [|b l' Hb]; simpl; constructor. apply Hb.
Qed.

(** C4.  The lines of the output log come from input records at strictly
    increasing positions: no input record is used twice and the order of
    the input is kept.  Each line is its input record with ["frame_path"]
    set, every other field as it was. *)
Theorem output_is_ordered_subsequence :
  forall (recs : list Written),
    out_jsonl main_ = Some recs ->
    StronglySorted lt (List.map w_index recs) /\
    (forall r, In r recs ->
       exists d p,
         nth_error input_log (w_index r) = Some (JObj d) /\
         w_out r = dict_set d (lit "frame_path") (JStr p) /\
         (forall key, key <> lit "frame_path" ->
                      dict_get (w_out r) key = dict_get d key)).
Proof.
  intros recs Hout.
  destruct (main_written recs Hout) as (anchor & j & st & _ & Hinv & ->).
  split.
  - apply Sorted_StronglySorted; [exact Nat.lt_trans|].
    apply Sorted_Next_index, (inv_next _ _ _ _ Hinv).
  - intros r Hin. apply In_nth_error in Hin. destruct Hin as [k Hk].
    destruct (inv_kept _ _ _ _ Hinv k r Hk)
      as (_ & _ & d & ts & ms & Hd & _ & _ & _ & _ & _ & _ & _ & Hout').
    exists d. eexists. split; [exact Hd|]. split; [exact Hout'|].
    intros key Hkey. rewrite Hout'. apply dict_get_set_other. congruence.
Qed.

(** A record for which no frame can be extracted changes nothing. *)
Lemma step_extract_fails (anchor : float) (st st' : Loop) (i : nat) (ev : json) :
  (forall t p, extract_frame_ok w i t p = false) ->
  step_ anchor st i ev = Ok st' -> st' = st.
Proof.
  intros Hfail H.
  destruct (step_cases [ev] anchor st st' i ev H)
    as [->|(r & _ & _ & [p Hp] & _)]; [reflexivity|].
  rewrite Hfail in Hp. discriminate.
Qed.

(** The file name of a frame opens with the counter, six digits wide. *)
Lemma frame_path_counter (cnt : Z) (d : dict) (ms : Z) :
  exists rest,
    frame_path cnt d ms = images_dir w ++ lit "/" ++ format_06d cnt ++ rest.
Proof.
  unfold frame_path, frame_name. eexists. reflexivity.
Qed.

(** C10.  A record whose frame cannot be extracted leaves the counter, the
    tracked relative time and the output as they were.  Hence, whatever
    records the loop has run over, the counter is one more than the number
    of lines written, the relative time the gap test reads is that of the
    last line written ([-inf] before the first), and the [k]-th line
    (counting from 0) carries the number [k + 1] at the head of its frame's
    file name, the first one [000001]. *)
Theorem failed_extraction_advances_nothing :
  (forall (anchor : float) (st st' : Loop) (i : nat) (ev : json),
      (forall t p, extract_frame_ok w i t p = false) ->
      step_ anchor st i ev = Ok st' -> st' = st) /\
  (forall (anchor : float) (evs : list json),
      let st := fst (loop_ anchor loop_init 0 evs) in
      counter st = Z.of_nat (List.length (fout st)) + 1 /\
      last_rel st = tracked (fout st) /\
      (forall k r, nth_error (fout st) k = Some r ->
         w_counter r = Z.of_nat k + 1 /\
         exists rest,
           dict_get (w_out r) (lit "frame_path")
           = Some (JStr (path_resolve
                           (images_dir w ++ lit "/"
                              ++ format_06d (Z.of_nat k + 1) ++ rest))))) /\
  (forall recs, out_jsonl main_ = Some recs ->
      exists anchor, recs = fout (fst (loop_ anchor loop_init 0 input_log))) /\
  format_06d 1 = lit "000001".
Proof.
  split; [exact step_extract_fails|]. split; [|split; [|reflexivity]].
  - intros anchor evs st.
    destruct (loop_Inv evs anchor evs [] loop_init eq_refl (Inv_init evs anchor))
      as [j Hj].
    simpl List.length in Hj. fold st in Hj.
    split; [apply (inv_counter _ _ _ _ Hj)|].
    split; [apply (inv_last _ _ _ _ Hj)|].
    intros k r Hk.
    destruct (inv_kept _ _ _ _ Hj k r Hk)
      as (Hcnt & _ & d & ts & ms & _ & _ & _ & _ & _ & _ & _ & _ & Hout').
    split; [exact Hcnt|].
    destruct (frame_path_counter (w_counter r) d ms) as [rest Hrest].
    exists rest. rewrite Hout', dict_get_set_same, Hrest, Hcnt. reflexivity.
  - intros recs Hout. unfold main_, main in Hout.
    destruct (missing w); [discriminate|].
    destruct (images_mkdir w); [discriminate|].
    destruct (out_mkdir w); [discriminate|].
    destruct (log_read_error w); [discriminate|].
    destruct (video_start_epoch unicode_word (ffmpeg_log w) (prefer a) (clock w))
      as [anchor|e]; [|discriminate].
    destruct (ffmpeg_found w); [|discriminate].
    destruct (out_open w); [discriminate|].
    exists anchor. unfold loop_, input_log. unfold reconcile in Hout.
    destruct (read_jsonl json_loads (jsonl_lines w) (jsonl_error w))
      as [evs stopped].
    cbn [fst].
    destruct (loop float_of_str py_str path_resolve w a anchor loop_init 0 evs)
      as [st e].
    simpl in Hout. simpl. congruence.
Qed.

(** The exception of a run whose encoder log holds no marker: that of a
    step in front of the search when one failed, the [RuntimeError] of the
    missing marker otherwise. *)
Definition abort_without_marker : exn :=
  if missing w then FileNotFoundError
  else
    match images_mkdir w with
    | Some e => e
    | None =>
        match out_mkdir w with
        | Some e => e
        | None =>
            match log_read_error w with
            | Some e => e
            | None => RuntimeError
            end
        end
    end.

(** C7.  When no position of the encoder log matches [START_RE], the run
    ends with an exception before the output log is opened: no line is
    written.  (The exception is the [RuntimeError] of the missing marker,
    unless a required file was already found missing, a directory could not
    be created or the encoder log could not be read.) *)
Theorem no_marker_aborts_without_output :
  (forall i, match_at unicode_word
               (AnchorSpec.before None (ffmpeg_log w) i)
               (skipn i (ffmpeg_log w)) = None) ->
  out_jsonl main_ = None /\
  raised main_ = Some abort_without_marker.
Proof.
  intros H. unfold main_, main, video_start_epoch, abort_without_marker.
  rewrite (AnchorSpec.extract_none unicode_word (ffmpeg_log w) (prefer a) H).
  destruct (missing w); [split; reflexivity|].
  destruct (images_mkdir w); [split; reflexivity|].
  destruct (out_mkdir w); [split; reflexivity|].
  destruct (log_read_error w); split; reflexivity.
Qed.

End Reconcile.

(** ** A concrete run *)

Definition click_at_101 : json :=
  JObj [(lit "type", JStr (lit "click")); (lit "ts", JFloat 1700000101)].

Definition click_50ms_later : json :=
  JObj [(lit "type", JStr (lit "click")); (lit "ts", JFloat 1700000101.05)].

Definition scroll_before_start : json :=
  JObj [(lit "type", JStr (lit "scroll_start")); (lit "ts", JInt 1700000090)].

Definition typing_at_102 : json :=
  JObj [(lit "type", JStr (lit "type")); (lit "ts", JFloat 1700000102);
        (lit "value", JStr (lit "abc"))].

(** A decoder for the four lines ["A"], ["B"], ["C"] and ["D"]. *)
Definition loads4 (l : str) : result json :=
  match l with
  | [65%N] => Ok click_at_101
  | [66%N] => Ok click_50ms_later
  | [67%N] => Ok scroll_before_start
  | [68%N] => Ok typing_at_102
  | _ => Raise JSONDecodeError
  end.

Definition no_float (_ : str) : option float := None.
Definition no_str (_ : json) : str := [].
Definition as_is (p : str) : str := p.

Definition args200 : Args :=
  mkArgs None 0 200 (lit "jpg") (lit "last").

(** The encoder started at host time 12.5 s, that is at 1700000100.0. *)
Definition world4 (log : str) (ok : nat -> float -> str -> bool) : World :=
  mkWorld false log AnchorSpec.scenario_clock true
          [lit "A"; lit "B"; lit " "; lit "C"; lit "{oops"; lit "D"]
          (lit "/img/s1") ok None None None None None (fun _ _ => None) None.

Definition marked_log : str := lit "  Duration: N/A, start: 12.500000, bitrate: N/A".

Definition always_ok (_ : nat) (_ : float) (_ : str) : bool := true.

Definition run4 : Outcome :=
  main AnchorSpec.ascii_only loads4 no_float no_str as_is
       (world4 marked_log always_ok) args200.

Definition line1 : Written :=
  mkWritten 0 1 1
    [(lit "type", JStr (lit "click")); (lit "ts", JFloat 1700000101);
     (lit "frame_path", JStr (lit "/img/s1/000001_click_1700000101000.jpg"))].

Definition line2 : Written :=
  mkWritten 3 2 2
    [(lit "type", JStr (lit "type")); (lit "ts", JFloat 1700000102);
     (lit "value", JStr (lit "abc"));
     (lit "frame_path", JStr (lit "/img/s1/000002_type_1700000102000.jpg"))].

Lemma run4_output : out_jsonl run4 = Some [line1; line2].
Proof. vm_compute. reflexivity. Qed.

Lemma retained_only_after_anchor_and_listed_witness :
  exists anchor ts,
    anchor_ AnchorSpec.ascii_only (world4 marked_log always_ok) args200
      = Ok anchor /\
    (ts <? anchor)%float = false /\
    w_rel line1 = ((ts - anchor) + offset_s args200)%float /\
    (w_rel line1 <? 0)%float = false.
Proof.
  destruct (proj1 (retained_only_after_anchor_and_listed
                     AnchorSpec.ascii_only loads4 no_float no_str as_is
                     (world4 marked_log always_ok) args200)
              [line1; line2] line1 run4_output (or_introl eq_refl))
    as (anchor & d & ts & Ha & _ & _ & Hge & _ & Hrel & Hpos).
  exists anchor, ts. repeat split; assumption.
Defined.

Lemma min_gap_between_retained_witness :
  (min_gap_s args200 <=? w_rel line2 - w_rel line1)%float = true.
Proof.
  destruct (proj1 (min_gap_between_retained
                     AnchorSpec.ascii_only loads4 no_float no_str as_is
                     (world4 marked_log always_ok) args200)
              [line1; line2] 0%nat line1 line2 run4_output eq_refl eq_refl)
    as (_ & _ & H).
  apply H; reflexivity.
Defined.

Lemma output_is_ordered_subsequence_witness :
  StronglySorted lt [0; 3]%nat.
Proof.
  exact (proj1 (output_is_ordered_subsequence
                  AnchorSpec.ascii_only loads4 no_float no_str as_is
                  (world4 marked_log always_ok) args200
                  [line1; line2] run4_output)).
Defined.

(** An encoder that stopped before it reported its start. *)
Definition failed_log : str := lit "Conversion failed!".

Lemma no_marker_aborts_without_output_witness :
  main AnchorSpec.ascii_only loads4 no_float no_str as_is
       (world4 failed_log always_ok) args200
  = mkOutcome (Some RuntimeError) None.
Proof.
  assert (H : forall i,
             match_at AnchorSpec.ascii_only
               (AnchorSpec.before None failed_log i) (skipn i failed_log) = None).
  { intros i. do 19 (destruct i as [|i]; [reflexivity|]).
    unfold match_at.
    match goal with
    | |- (if ?b then _ else _) = _ => destruct b; reflexivity
    end. }
  destruct (no_marker_aborts_without_output
              AnchorSpec.ascii_only loads4 no_float no_str as_is
              (world4 failed_log always_ok) args200 H) as [Hout Hraised].
  unfold main_ in Hout, Hraised.
  destruct (main AnchorSpec.ascii_only loads4 no_float no_str as_is
              (world4 failed_log always_ok) args200) as [e o].
  simpl in Hout, Hraised. now rewrite Hout, Hraised.
Defined.

(** The frame of the first record cannot be extracted. *)
Definition first_fails (i : nat) (_ : float) (_ : str) : bool :=
  negb (i =? 0)%nat.

Lemma failed_extraction_advances_nothing_witness :
  step_ no_float no_str as_is (world4 marked_log first_fails) args200
        1700000100 loop_init 0 click_at_101 = Ok loop_init /\
  option_map (List.map (fun r => (w_index r, w_counter r)))
    (out_jsonl (main AnchorSpec.ascii_only loads4 no_float no_str as_is
                     (world4 marked_log first_fails) args200))
  = Some [(1%nat, 1); (3%nat, 2)].
Proof.
  split; [|vm_compute; reflexivity].
  destruct (step_ no_float no_str as_is (world4 marked_log first_fails) args200
              1700000100 loop_init 0 click_at_101) as [st'|e] eqn:E;
    [|vm_compute in E; discriminate].
  now rewrite (proj1 (failed_extraction_advances_nothing
                        AnchorSpec.ascii_only loads4 no_float no_str as_is
                        (world4 marked_log first_fails) args200)
                 1700000100%float loop_init st' 0%nat click_at_101
                 (fun _ _ => eq_refl) E).
Defined.

End ReconcileSpec.

(* ================================================================== *)
(** * More on the sinks: producers, shutdown and the consumer threads *)
(* ================================================================== *)

Module SinkSpec.
Import Py PyFacts Save.
Local Open Scope py_scope.

(** A producer that puts the lines one after the other. *)
Fixpoint LogPump_put_all (p : LogPump) (lines : list str) : result LogPump :=
  match lines with
  | [] => Ok p
  | line :: rest => p' <- LogPump_put p line ;; LogPump_put_all p' rest
  end.

(** The slots still free in a bounded queue. *)
Definition free_slots {A} (q : Queue A) : nat := Z.to_nat (maxsize q - qsize q).

Lemma full_no_free {A} (q : Queue A) :
  0 < maxsize q -> full q = true -> free_slots q = O.
Proof.
  unfold full, free_slots. intros Hpos H.
  apply andb_true_iff in H. destruct H as [_ H]. apply Z.leb_le in H. lia.
Qed.

Lemma not_full_free {A} (q : Queue A) (x : A) :
  0 < maxsize q -> full q = false ->
  free_slots q = S (free_slots (mkQueue (maxsize q) (items q ++ [x]))).
Proof.
  unfold full, free_slots, qsize. simpl. intros Hpos H.
  rewrite length_app. simpl.
  apply andb_false_iff in H.
  destruct H as [H|H]; [apply Z.ltb_ge in H|apply Z.leb_gt in H]; lia.
Qed.

Lemma put_all_items (lines : list str) :
  forall p : LogPump,
    0 < maxsize (pump_q p) ->
    exists p',
      LogPump_put_all p lines = Ok p' /\
      pump_stop p' = pump_stop p /\
      maxsize (pump_q p') = maxsize (pump_q p) /\
      items (pump_q p') =
        items (pump_q p)
          ++ List.map Some (firstn (free_slots (pump_q p)) lines).
Proof.
  induction lines as [|line rest IH]; intros p Hpos; simpl.
  - exists p. rewrite firstn_nil, app_nil_r. auto.
  - unfold LogPump_put. rewrite SaveSpec.put_or_drop_ok. cbn [bind].
    destruct (full (pump_q p)) eqn:F.
    + destruct (IH (mkLogPump (pump_q p) (pump_stop p) (pump_t p)) Hpos)
        as (p' & Hrun & Hs & Hm & Hi).
      exists p'. simpl in *. rewrite Hrun, Hi.
      rewrite (full_no_free _ Hpos F). simpl. auto.
    + destruct (IH (mkLogPump (mkQueue (maxsize (pump_q p))
                                 (items (pump_q p) ++ [Some line]))
                              (pump_stop p) (pump_t p)) Hpos)
        as (p' & Hrun & Hs & Hm & Hi).
      exists p'. simpl in *. rewrite Hrun, Hi.
      rewrite (not_full_free _ (Some line) Hpos F). simpl.
      rewrite <- app_assoc. auto.
Qed.

(** X1.  A producer that puts a list of lines into a bounded [LogPump]
    never fails: the lines fill the free slots in the order they were put,
    behind what was already queued, and every line put after the last free
    slot is taken is lost. *)
Theorem puts_fill_free_slots_in_order :
  forall (p : LogPump) (lines : list str),
    0 < maxsize (pump_q p) ->
    exists p',
      LogPump_put_all p lines = Ok p' /\
      pump_stop p' = pump_stop p /\
      items (pump_q p') =
        items (pump_q p)
          ++ List.map Some (firstn (free_slots (pump_q p)) lines).
Proof.
  intros p lines Hpos.
  destruct (put_all_items lines p Hpos) as (p' & H1 & H2 & _ & H3).
  now exists p'.
Qed.

(** ** The consumer threads *)

Section Printer.

Variable print_error : str -> option exn.

Definition printable (line : str) : Prop := print_error line = None.

(** The lines of a run that are printed: those in front of the first one
    for which [print] raises, with that exception and the lines behind it. *)
Fixpoint print_all (lines : list str) : list str * option (exn * list str) :=
  match lines with
  | [] => ([], None)
  | line :: rest =>
      match print_error line with
      | Some e => ([], Some (e, rest))
      | None => let '(out, r) := print_all rest in (line :: out, r)
      end
  end.

Lemma print_all_printable (lines : list str) :
  Forall printable lines -> print_all lines = (lines, None).
Proof.
  induction 1 as [|line rest Hl _ IH]; cbn [print_all]; [reflexivity|].
  unfold printable in Hl. now rewrite Hl, IH.
Qed.

Lemma print_all_stops (before : list str) (bad : str) (after : list str)
    (e : exn) :
  Forall printable before -> print_error bad = Some e ->
  print_all (before ++ bad :: after) = (before, Some (e, after)).
Proof.
  intros Hb Hbad.
  induction Hb as [|line rest Hl _ IH]; cbn [app print_all].
  - now rewrite Hbad.
  - unfold printable in Hl. now rewrite Hl, IH.
Qed.

Lemma LogPump_run_lines (lines : list str) :
  forall (n : nat) (m : Z) (t : Thread) (tail : list (option str)),
    (List.length lines < n)%nat ->
    LogPump_run print_error n
      (mkLogPump (mkQueue m (List.map Some lines ++ tail)) false t)
    = match print_all lines with
      | (out, Some (e, rest)) =>
          (out, mkLogPump (mkQueue m (List.map Some rest ++ tail)) false t,
           Died e)
      | (out, None) =>
          match tail with
          | [] => (out, mkLogPump (mkQueue m []) false t, Looping)
          | None :: rest => (out, mkLogPump (mkQueue m rest) false t, Returned)
          | Some _ :: _ =>
              let '(out', p, ending) :=
                LogPump_run print_error (n - List.length lines)
                            (mkLogPump (mkQueue m tail) false t) in
              (out ++ out', p, ending)
          end
      end.
Proof.
  induction lines as [|line lines IH]; intros n m t tail Hn.
  - destruct n as [|n]; [simpl in Hn; lia|].
    cbn [List.map app List.length print_all]. rewrite Nat.sub_0_r.
    destruct tail as [|[x|] rest]; try reflexivity.
    now destruct (LogPump_run print_error (S n) _) as [[out p] ending].
  - destruct n as [|n]; [simpl in Hn; lia|].
    cbn [List.map app LogPump_run consumer_turn pump_stop pump_q pump_t items
         maxsize print_all].
    destruct (print_error line) as [e|]; [reflexivity|].
    rewrite IH by (simpl in Hn; lia).
    destruct (print_all lines) as [out [[e rest]|]]; [reflexivity|].
    destruct tail as [|[x|] rest]; try reflexivity.
    cbn [List.length Nat.sub].
    now destruct (LogPump_run print_error _ _) as [[out' p] ending].
Qed.

Lemma run_printable (n : nat) (m : Z) (t : Thread) (lines : list str)
    (rest : list (option str)) :
  (List.length lines < n)%nat ->
  Forall printable lines ->
  LogPump_run print_error n
    (mkLogPump (mkQueue m (List.map Some lines ++ None :: rest)) false t)
    = (lines, mkLogPump (mkQueue m rest) false t, Returned) /\
  LogPump_run print_error n
    (mkLogPump (mkQueue m (List.map Some lines)) false t)
    = (lines, mkLogPump (mkQueue m []) false t, Looping).
Proof.
  intros Hn Hok. split.
  - now rewrite (LogPump_run_lines lines n m t (None :: rest) Hn),
      (print_all_printable _ Hok).
  - rewrite <- (app_nil_r (List.map Some lines)).
    now rewrite (LogPump_run_lines lines n m t [] Hn),
      (print_all_printable _ Hok).
Qed.

Lemma run_dies (n : nat) (m : Z) (t : Thread) (before : list str) (bad : str)
    (after : list str) (e : exn) (tail : list (option str)) :
  (List.length (before ++ bad :: after) < n)%nat ->
  Forall printable before -> print_error bad = Some e ->
  LogPump_run print_error n
    (mkLogPump (mkQueue m (List.map Some (before ++ bad :: after) ++ tail))
               false t)
    = (before, mkLogPump (mkQueue m (List.map Some after ++ tail)) false t,
       Died e).
Proof.
  intros Hn Hb Hbad.
  now rewrite (LogPump_run_lines _ n m t tail Hn),
    (print_all_stops before bad after e Hb Hbad).
Qed.

(** X3.  Left alone with its queue, the console consumer prints the queued
    lines in the order they were put.  When every line can be printed it
    goes on up to the first sentinel, ends there and leaves what was queued
    behind the sentinel unprinted; without a sentinel it prints every line
    and goes on waiting.  At the first line for which [print] raises the
    thread dies with that exception: the lines in front of it were printed,
    the line itself is lost and the lines behind it stay in the queue. *)
Theorem consumer_prints_in_order_until_sentinel :
  forall (n : nat) (m : Z) (t : Thread) (lines : list str)
         (rest : list (option str)),
    (List.length lines < n)%nat ->
    (Forall printable lines ->
     LogPump_run print_error n
       (mkLogPump (mkQueue m (List.map Some lines ++ None :: rest)) false t)
       = (lines, mkLogPump (mkQueue m rest) false t, Returned) /\
     LogPump_run print_error n
       (mkLogPump (mkQueue m (List.map Some lines)) false t)
       = (lines, mkLogPump (mkQueue m []) false t, Looping)) /\
    (forall before bad after e,
        lines = before ++ bad :: after ->
        Forall printable before -> print_error bad = Some e ->
        LogPump_run print_error n
          (mkLogPump (mkQueue m (List.map Some lines ++ rest)) false t)
        = (before, mkLogPump (mkQueue m (List.map Some after ++ rest)) false t,
           Died e)).
Proof.
  intros n m t lines rest Hn. split.
  - intros Hok. now apply run_printable.
  - intros before bad after e -> Hb Hbad. now apply run_dies.
Qed.




End Printer.

Section Writer.

Variable append_line : dict -> option str.

(** The lines the file gains from a run of items: one per item whose write
    goes through. *)
Fixpoint appended (objs : list dict) : list str :=
  match objs with
  | [] => []
  | obj :: rest =>
      match append_line obj with
      | Some line => line :: appended rest
      | None => appended rest
      end
  end.

Definition writer_with (w : JsonlWriter) (q : Queue (option dict)) : JsonlWriter :=
  mkJsonlWriter (out_dir w) (filename w) q (jsonl_stop w) (jsonl_t w).

Lemma JsonlWriter_run_items (objs : list dict) :
  forall (n : nat) (w : JsonlWriter) (rest : list (option dict)) (sentinel : bool),
    jsonl_stop w = false ->
    items (jsonl_q w)
      = List.map Some objs ++ (if sentinel then None :: rest else []) ->
    (List.length objs < n)%nat ->
    JsonlWriter_run append_line n w
    = (appended objs,
       writer_with w (mkQueue (maxsize (jsonl_q w)) (if sentinel then rest else [])),
       sentinel).
Proof.
  induction objs as [|obj objs IH]; intros n w rest sentinel Hstop Hitems Hn;
    (destruct n as [|n]; [simpl in Hn; lia|]);
    destruct w as [d f [m its] st t]; simpl in Hstop, Hitems; subst st its.
  - destruct sentinel; reflexivity.
  - cbn [JsonlWriter_run consumer_turn jsonl_stop jsonl_q jsonl_t items
         List.map app out_dir filename maxsize].
    rewrite (IH n _ rest sentinel) by (simpl in *; auto; lia).
    cbn [appended]. unfold writer_with. simpl.
    now destruct (append_line obj).
Qed.

(** X4.  Left alone with its queue, the JSONL consumer takes the items in
    the order they were put, up to the first sentinel, and appends one line
    for each item whose write goes through: an item whose serialisation or
    write raises is passed over, and the items behind it are still
    written. *)
Theorem writer_skips_failed_writes_and_goes_on :
  forall (n : nat) (w : JsonlWriter) (objs : list dict)
         (rest : list (option dict)) (sentinel : bool),
    jsonl_stop w = false ->
    items (jsonl_q w)
      = List.map Some objs ++ (if sentinel then None :: rest else []) ->
    (List.length objs < n)%nat ->
    JsonlWriter_run append_line n w
    = (appended objs,
       writer_with w (mkQueue (maxsize (jsonl_q w)) (if sentinel then rest else [])),
       sentinel) /\
    (forall before obj after,
        objs = before ++ obj :: after -> append_line obj = None ->
        appended objs = appended before ++ appended after).
Proof.
  intros n w objs rest sentinel Hstop Hitems Hn. split.
  - now apply JsonlWriter_run_items.
  - intros before obj after -> Hfail. clear Hitems Hn.
    induction before as [|b before IH]; simpl.
    + now rewrite Hfail.
    + destruct (append_line b); simpl; now rewrite IH.
Qed.

End Writer.

(** X5.  Lines put into a fresh, started [LogPump] and then left to its
    consumer come out in the order they were put, and only the first 10000
    of them: the pump holds no more.  When all of these can be printed the
    consumer then waits for the next line; otherwise it prints those in
    front of the first line for which [print] raises and dies there. *)
Theorem fresh_pump_prints_first_10000 :
  forall (print_error : str -> option exn) (lines : list str) (n : nat),
    (List.length lines < n)%nat ->
    exists p0 p,
      LogPump_start LogPump_init = Ok p0 /\
      LogPump_put_all p0 lines = Ok p /\
      (Forall (printable print_error) (firstn (Z.to_nat 10000) lines) ->
       exists p',
         LogPump_run print_error n p
         = (firstn (Z.to_nat 10000) lines, p', Looping)) /\
      (forall before bad after e,
          firstn (Z.to_nat 10000) lines = before ++ bad :: after ->
          Forall (printable print_error) before ->
          print_error bad = Some e ->
          exists p', LogPump_run print_error n p = (before, p', Died e)).
Proof.
  intros print_error lines n Hn.
  exists (mkLogPump (mkQueue 10000 []) false Started).
  destruct (put_all_items lines (mkLogPump (mkQueue 10000 []) false Started)
              eq_refl) as (p & Hp & Hs & Hm & Hi).
  exists p. split; [reflexivity|]. split; [exact Hp|].
  destruct p as [[m its] stop t].
  cbn [pump_stop pump_q maxsize items] in Hs, Hm, Hi.
  change (free_slots (mkQueue 10000 (@nil (option str))))
    with (Z.to_nat 10000) in Hi.
  cbn [app] in Hi. subst stop its.
  assert (Hlen : (List.length (firstn (Z.to_nat 10000) lines) < n)%nat).
  { rewrite length_firstn.
    pose proof (Nat.le_min_r (Z.to_nat 10000) (List.length lines)). lia. }
  split.
  - intros Hok. eexists.
    apply (proj2 (run_printable print_error n m t _ [] Hlen Hok)).
  - intros before bad after e Hsplit Hb Hbad. eexists.
    rewrite Hsplit in Hlen |- *.
    rewrite <- (app_nil_r (List.map Some (before ++ bad :: after))).
    apply (run_dies print_error n m t before bad after e [] Hlen Hb Hbad).
Qed.

(** ** Concrete runs *)

(** A pump with two slots, one of them taken. *)
Definition small_pump : LogPump :=
  mkLogPump (mkQueue 2 [Some (lit "a")]) false Started.

Lemma puts_fill_free_slots_in_order_witness :
  exists p',
    LogPump_put_all small_pump [lit "b"; lit "c"; lit "d"] = Ok p' /\
    items (pump_q p') = [Some (lit "a"); Some (lit "b")].
Proof.
  destruct (puts_fill_free_slots_in_order small_pump
              [lit "b"; lit "c"; lit "d"] eq_refl) as (p' & H & _ & Hi).
  exists p'. split; [exact H|exact Hi].
Defined.

(** A standard output in UTF-8: a line that holds a surrogate code point
    cannot be encoded. *)
Definition utf8_stdout (line : str) : option exn :=
  if existsb (fun c => (55296 <=? c) && (c <=? 57343))%N line
  then Some UnicodeEncodeError
  else None.

Definition lone_surrogate : str := lit "a" ++ [55296%N].

Lemma consumer_prints_in_order_until_sentinel_witness :
  LogPump_run utf8_stdout 5
    (mkLogPump
       (mkQueue 10000 [Some (lit "a"); Some (lit "b"); None; Some (lit "c")])
       false Started)
  = ([lit "a"; lit "b"], mkLogPump (mkQueue 10000 [Some (lit "c")]) false Started,
     Returned)
  /\ LogPump_run utf8_stdout 4
       (mkLogPump
          (mkQueue 10000 [Some (lit "a"); Some lone_surrogate; Some (lit "b"); None])
          false Started)
     = ([lit "a"], mkLogPump (mkQueue 10000 [Some (lit "b"); None]) false Started,
        Died UnicodeEncodeError).
Proof.
  split.
  - apply (consumer_prints_in_order_until_sentinel utf8_stdout 5 10000 Started
             [lit "a"; lit "b"] [Some (lit "c")]).
    + simpl. lia.
    + repeat constructor.
  - apply (proj2 (consumer_prints_in_order_until_sentinel utf8_stdout 4 10000
                    Started [lit "a"; lone_surrogate; lit "b"] [None]
                    (Nat.lt_succ_diag_r 3))
             [lit "a"] lone_surrogate [lit "b"] UnicodeEncodeError eq_refl).
    + repeat constructor.
    + reflexivity.
Defined.

(** A file that takes the ["n"] field of an item as its line and refuses an
    item without one. *)
Definition append_n (d : dict) : option str :=
  match dict_get d (lit "n") with
  | Some (JStr s) => Some s
  | _ => None
  end.

Definition writer3 : JsonlWriter :=
  mkJsonlWriter (lit "logs") (lit "s1")
    (mkQueue 10000
       [Some [(lit "n", JStr (lit "one"))]; Some [(lit "x", JNull)];
        Some [(lit "n", JStr (lit "three"))]; None])
    false Started.

Lemma writer_skips_failed_writes_and_goes_on_witness :
  fst (fst (JsonlWriter_run append_n 4 writer3)) = [lit "one"; lit "three"].
Proof.
  destruct (writer_skips_failed_writes_and_goes_on append_n 4 writer3
              [[(lit "n", JStr (lit "one"))]; [(lit "x", JNull)];
               [(lit "n", JStr (lit "three"))]] [] true
              eq_refl eq_refl (Nat.lt_succ_diag_r 3)) as [H _].
  rewrite H. reflexivity.
Defined.

Lemma fresh_pump_prints_first_10000_witness :
  exists p0 p,
    LogPump_start LogPump_init = Ok p0 /\
    LogPump_put_all p0 [lit "a"; lone_surrogate; lit "b"] = Ok p /\
    exists p',
      LogPump_run utf8_stdout 4 p = ([lit "a"], p', Died UnicodeEncodeError).
Proof.
  destruct (fresh_pump_prints_first_10000 utf8_stdout
              [lit "a"; lone_surrogate; lit "b"] 4 (Nat.lt_succ_diag_r 3))
    as (p0 & p & H0 & Hp & _ & Hdie).
  exists p0, p. split; [exact H0|]. split; [exact Hp|].
  apply (Hdie [lit "a"] lone_surrogate [lit "b"] UnicodeEncodeError).
  - change (Z.to_nat 10000) with (3 + Z.to_nat 9997)%nat. reflexivity.
  - repeat constructor.
  - reflexivity.
Defined.

End SinkSpec.

(* ================================================================== *)
(** * More on the capture pipeline *)
(* ================================================================== *)

Module HandlerSpec.
Import Py PyFacts Save Capture.
Local Open Scope py_scope.

(** ** Page identifiers *)

Section PageIds.

Variable uuid4 : nat -> str.

(** The pages seen one after the other. *)
Definition see_all (ps : Pages) (pages : list nat) : Pages :=
  fold_left (fun s q => fst (_pid uuid4 s q)) pages ps.

Lemma page_lookup_app (ids : list (nat * str)) (page q : nat) (pid : str) :
  page_lookup (ids ++ [(q, pid)]) page =
  match page_lookup ids page with
  | Some x => Some x
  | None => if (q =? page)%nat then Some pid else None
  end.
Proof.
  induction ids as [|[p x] ids IH]; simpl; [reflexivity|].
  now destruct (p =? page)%nat.
Qed.

Lemma pid_keeps (ps : Pages) (page q : nat) (pid : str) :
  page_lookup (page_ids ps) page = Some pid ->
  page_lookup (page_ids (fst (_pid uuid4 ps q))) page = Some pid.
Proof.
  intros H. unfold _pid.
  destruct (page_lookup (page_ids ps) q); simpl; [exact H|].
  now rewrite page_lookup_app, H.
Qed.

Lemma see_all_keeps (pages : list nat) :
  forall (ps : Pages) (page : nat) (pid : str),
    page_lookup (page_ids ps) page = Some pid ->
    page_lookup (page_ids (see_all ps pages)) page = Some pid.
Proof.
  induction pages as [|q pages IH]; intros ps page pid H; simpl; [exact H|].
  apply IH. now apply pid_keeps.
Qed.

Lemma pid_records (ps : Pages) (page : nat) :
  page_lookup (page_ids (fst (_pid uuid4 ps page))) page
  = Some (snd (_pid uuid4 ps page)).
Proof.
  unfold _pid. destruct (page_lookup (page_ids ps) page) eqn:E; simpl.
  - exact E.
  - now rewrite page_lookup_app, E, Nat.eqb_refl.
Qed.

(** X6.  The identifier a page is given when it is first seen is the one it
    is given ever after, whatever pages are seen in between; and an
    identifier once recorded is never replaced. *)
Theorem page_id_is_stable :
  forall (ps : Pages) (page : nat) (others : list nat),
    let first := _pid uuid4 ps page in
    let later := see_all (fst first) others in
    snd (_pid uuid4 later page) = snd first /\
    (forall q pid, page_lookup (page_ids ps) q = Some pid ->
                   page_lookup (page_ids later) q = Some pid).
Proof.
  intros ps page others first later. split.
  - assert (H : page_lookup (page_ids later) page = Some (snd first))
      by (apply see_all_keeps, pid_records).
    unfold _pid. now rewrite H.
  - intros q pid H. apply see_all_keeps. now apply pid_keeps.
Qed.

End PageIds.

(** ** The console handler *)

Lemma in_str_set_true (x : json) (l : list str) :
  in_str_set x l = Ok true -> exists t, x = JStr t /\ In t l.
Proof.
  destruct x; simpl; try discriminate. intros [= H].
  apply existsb_exists in H. destruct H as (y & Hin & Hy).
  apply str_eqb_eq in Hy. subst y. now exists s.
Qed.

Lemma accepted_true (cfg : Config) (obj : dict) :
  accepted cfg obj = Ok true ->
  eq_one (get obj (lit "__rec")) = true /\
  exists t, get obj (lit "type") = JStr t /\ In t (action_types cfg).
Proof.
  unfold accepted. destruct (eq_one (get obj (lit "__rec"))); [|discriminate].
  intros H. split; [reflexivity|]. now apply in_str_set_true.
Qed.

Lemma redact_value_other (obj obj' : dict) (k : str) :
  redact_value obj = Ok obj' -> k <> lit "value" ->
  dict_get obj' k = dict_get obj k.
Proof.
  unfold redact_value. intros H Hk.
  destruct (in_str_set (get obj (lit "type")) _) as [[|]|]; cbn [bind] in H;
    try discriminate; [|congruence].
  destruct (get obj (lit "value")); try congruence.
  injection H as <-. apply dict_get_set_other. congruence.
Qed.


Lemma dict_get_pop_same (d : dict) (k : str) :
  NoDup (List.map fst d) -> dict_get (dict_pop d k) k = None.
Proof.
  induction d as [|[k' v] d IH]; intros Hnd; simpl; [reflexivity|].
  inversion Hnd as [|? ? Hnotin Hnd']; subst.
  destruct (str_eqb k' k) eqn:E; simpl.
  - apply str_eqb_eq in E. subst k'.
    clear IH Hnd Hnd'. induction d as [|[k2 v2] d IH]; simpl; [reflexivity|].
    destruct (str_eqb k2 k) eqn:E2.
    + apply str_eqb_eq in E2. subst k2. exfalso. apply Hnotin. now left.
    + apply IH. intros Hin. apply Hnotin. now right.
  - rewrite E. now apply IH.
Qed.

Section Handler.

Variable json_loads : str -> option json.
Variable json_dumps : dict -> str.
Variable upper : str -> str.

Definition on_console := _on_console json_loads json_dumps upper.

Lemma debug_put_quiet (r r' : Recorder) (line : str) :
  debug_put r line = Ok r' -> jsonl r' = jsonl r /\
  (debug (config r) = false -> r' = r).
Proof.
  unfold debug_put, pump_put, LogPump_put.
  rewrite SaveSpec.put_or_drop_ok. cbn [bind].
  destruct (debug (config r)); intros [= <-]; split; auto; discriminate.
Qed.

(** What a successful turn of the handler did: nothing but, at most, a
    diagnostic line, or the emission of an accepted record. *)
Lemma on_console_ok (r r' : Recorder) (pid : str) (msg : ConsoleMessage) :
  on_console r pid msg = Ok r' ->
  (jsonl r' = jsonl r /\ (debug (config r) = false -> r' = r)) \/
  exists obj obj',
    hd_error (msg_text msg) = Some 123%N /\
    json_loads (msg_text msg) = Some (JObj obj) /\
    accepted (config r) obj = Ok true /\
    redact_value (dict_pop obj (lit "__rec")) = Ok obj' /\
    _emit_event json_dumps r pid obj' = Ok r'.
Proof.
  unfold on_console, _on_console. intros H.
  destruct (msg_text msg) as [|c text] eqn:Etext;
    [left; now apply (debug_put_quiet _ _ _ H)|].
  destruct (c =? 123)%N eqn:Ec;
    [|left; now apply (debug_put_quiet _ _ _ H)].
  apply N.eqb_eq in Ec. subst c. cbn zeta in H. revert H.
  match goal with
  | |- context [json_loads ?t] =>
      destruct (json_loads t) as [[| | | | | |obj]|] eqn:Eload
  end;
    intros H; try discriminate;
    [|left; now apply (debug_put_quiet _ _ _ H)].
  revert H.
  destruct (accepted (config r) obj) as [[|]|] eqn:Eacc; cbn [bind];
    intros H; try discriminate;
    [|left; now apply (debug_put_quiet _ _ _ H)].
  revert H.
  destruct (redact_value (dict_pop obj (lit "__rec"))) as [obj'|] eqn:Ered;
    cbn [bind]; intros H; [|discriminate].
  right. exists obj, obj'. auto.
Qed.

(** X7.  With diagnostics off, a console message changes the recorder only
    when it is an accepted record: text that opens with a brace, parses to
    an object, carries the marker [__rec == 1] and has its type in the
    allow-set.  Any other message leaves both sinks exactly as they
    were. *)
Theorem quiet_unless_accepted :
  forall (r r' : Recorder) (pid : str) (msg : ConsoleMessage),
    debug (config r) = false ->
    on_console r pid msg = Ok r' ->
    r' = r \/
    exists obj,
      hd_error (msg_text msg) = Some 123%N /\
      json_loads (msg_text msg) = Some (JObj obj) /\
      eq_one (get obj (lit "__rec")) = true /\
      exists t, get obj (lit "type") = JStr t /\ In t (action_types (config r)).
Proof.
  intros r r' pid msg Hdebug H.
  destruct (on_console_ok r r' pid msg H)
    as [[_ Hq]|(obj & obj' & Hhd & Hload & Hacc & _)].
  - left. now apply Hq.
  - right. exists obj. destruct (accepted_true _ _ Hacc) as [H1 H2]. auto.
Qed.

Lemma snoc_not_self {A} (l : list A) (x : A) : l <> l ++ [x].
Proof.
  intros H. apply (f_equal (@List.length A)) in H.
  rewrite length_app in H. simpl in H. lia.
Qed.

(** X8.  Whatever the handler adds to the structured sink is a record whose
    type is in the allow-set and from which the marker [__rec] is gone;
    apart from the marker, a redacted ["value"] and a normalised ["ts"], it
    has the fields of the parsed message, unchanged. *)
Theorem stored_event_is_allowed_and_unmarked :
  forall (r r' : Recorder) (pid : str) (msg : ConsoleMessage) (evt : dict),
    on_console r pid msg = Ok r' ->
    items (jsonl_q (jsonl r')) = items (jsonl_q (jsonl r)) ++ [Some evt] ->
    exists obj,
      json_loads (msg_text msg) = Some (JObj obj) /\
      (exists t, get evt (lit "type") = JStr t /\
                 In t (action_types (config r))) /\
      (NoDup (List.map fst obj) -> dict_get evt (lit "__rec") = None) /\
      (forall k, k <> lit "__rec" -> k <> lit "value" -> k <> lit "ts" ->
                 dict_get evt k = dict_get obj k).
Proof.
  intros r r' pid msg evt H Hitems.
  destruct (on_console_ok r r' pid msg H)
    as [[Hj _]|(obj & obj' & _ & Hload & Hacc & Hred & Hemit)].
  - rewrite Hj in Hitems. now apply snoc_not_self in Hitems.
  - destruct (CaptureSpec.emit_event_sinks json_dumps r r' pid obj' Hemit)
      as (evt0 & Hnorm & Hq & _).
    rewrite Hq in Hitems.
    destruct (full (jsonl_q (jsonl r)));
      [now apply snoc_not_self in Hitems|].
    apply app_inv_head in Hitems. injection Hitems as ->.
    assert (Hchain : forall k, k <> lit "__rec" -> k <> lit "value" ->
                               k <> lit "ts" -> dict_get evt k = dict_get obj k).
    { intros k H1 H2 H3.
      rewrite (CaptureSpec.normalize_ts_other obj' evt k Hnorm H3).
      rewrite (redact_value_other _ _ k Hred H2).
      apply dict_get_pop_other. congruence. }
    exists obj. split; [exact Hload|]. split; [|split; [|exact Hchain]].
    + destruct (accepted_true _ _ Hacc) as (_ & t & Ht & Hin).
      exists t. split; [|exact Hin].
      unfold get in *. rewrite Hchain; [exact Ht| | |]; vm_compute; discriminate.
    + intros Hnd.
      rewrite (CaptureSpec.normalize_ts_other obj' evt _ Hnorm)
        by (vm_compute; discriminate).
      rewrite (redact_value_other _ _ _ Hred) by (vm_compute; discriminate).
      now apply dict_get_pop_same.
Qed.

(** A value that cannot be a member of a set: a list or a dict. *)
Definition unhashable (x : json) : bool :=
  match x with
  | JArr _ | JObj _ => true
  | _ => false
  end.

Lemma in_str_set_raises (x : json) (l : list str) (e : exn) :
  in_str_set x l = Raise e -> e = TypeError /\ unhashable x = true.
Proof. destruct x; simpl; intros [= <-] || discriminate; auto. Qed.




End Handler.

(** X10.  Redaction is idempotent, and it keeps the first 117 characters
    of the value: a value already redacted, such as the one of a stored
    event, is left as it is. *)
Theorem redact_is_idempotent :
  forall v : str,
    redact (redact v) = redact v /\
    firstn 117 (redact v) = firstn 117 v.
Proof.
  intros v. split.
  - apply CaptureSpec.redact_short, CaptureSpec.redact_length.
  - unfold redact. destruct (List.length v <=? 120)%nat eqn:E; [reflexivity|].
    apply Nat.leb_gt in E.
    rewrite firstn_app, firstn_firstn, length_firstn.
    replace (117 - Nat.min 117 (List.length v))%nat with 0%nat by lia.
    rewrite Nat.min_id. simpl. apply app_nil_r.
Qed.

(** ** Concrete runs *)

Lemma quiet_unless_accepted_witness :
  on_console CaptureSpec.loads_long_typed CaptureSpec.no_dumps
             CaptureSpec.same_case CaptureSpec.recorder0 (lit "p1")
             (mkMsg (lit "warning") (lit "Deprecated API"))
  = Ok CaptureSpec.recorder0.
Proof.
  destruct (on_console CaptureSpec.loads_long_typed CaptureSpec.no_dumps
              CaptureSpec.same_case CaptureSpec.recorder0 (lit "p1")
              (mkMsg (lit "warning") (lit "Deprecated API")))
    as [r'|e] eqn:E; [|vm_compute in E; discriminate].
  destruct (quiet_unless_accepted CaptureSpec.loads_long_typed
              CaptureSpec.no_dumps CaptureSpec.same_case
              CaptureSpec.recorder0 r' (lit "p1")
              (mkMsg (lit "warning") (lit "Deprecated API")) eq_refl E)
    as [->|(obj & Hhd & _)]; [reflexivity|].
  vm_compute in Hhd. discriminate.
Defined.

(** What is stored for [CaptureSpec.long_typed]. *)
Definition stored_long_typed : dict :=
  [(lit "type", JStr (lit "type")); (lit "ts", JFloat 1700000000);
   (lit "value", JStr (repeat 97%N 117 ++ [ellipsis]))].

Lemma stored_event_is_allowed_and_unmarked_witness :
  exists t,
    get stored_long_typed (lit "type") = JStr t /\
    In t (action_types (config CaptureSpec.recorder0)) /\
    dict_get stored_long_typed (lit "__rec") = None.
Proof.
  destruct (on_console CaptureSpec.loads_long_typed CaptureSpec.no_dumps
              CaptureSpec.same_case CaptureSpec.recorder0 (lit "p1")
              (mkMsg (lit "log") (lit "{}")))
    as [r'|e] eqn:E; [|vm_compute in E; discriminate].
  assert (Hi : items (jsonl_q (jsonl r'))
               = items (jsonl_q (jsonl CaptureSpec.recorder0))
                   ++ [Some stored_long_typed]).
  { vm_compute in E. injection E as <-. vm_compute. reflexivity. }
  destruct (stored_event_is_allowed_and_unmarked
              CaptureSpec.loads_long_typed CaptureSpec.no_dumps
              CaptureSpec.same_case CaptureSpec.recorder0 r' (lit "p1")
              (mkMsg (lit "log") (lit "{}")) stored_long_typed E Hi)
    as (obj & Hload & (t & Ht & Hin) & Hrec & _).
  exists t. split; [exact Ht|]. split; [exact Hin|].
  apply Hrec. injection Hload as <-.
  vm_compute. repeat constructor; simpl; intuition discriminate.
Defined.

End HandlerSpec.

(* ================================================================== *)
(** * More on the event log and the encoder log *)
(* ================================================================== *)

Module LogSpec.
Import Py PyFacts ParserMac.
Local Open Scope py_scope.

(** ** [read_jsonl] *)

Section Jsonl.

Variable json_loads : str -> result json.

(** Reading two runs of lines one after the other. *)
Definition read_then (r1 r2 : list json * option exn) : list json * option exn :=
  match r1 with
  | (evs, Some e) => (evs, Some e)
  | (evs, None) => (evs ++ fst r2, snd r2)
  end.

Lemma read_jsonl_app (l1 l2 : list str) (failure : option exn) :
  read_jsonl json_loads (l1 ++ l2) failure
  = read_then (read_jsonl json_loads l1 None)
              (read_jsonl json_loads l2 failure).
Proof.
  induction l1 as [|line l1 IH]; cbn [app read_jsonl].
  - unfold read_then. cbn [app].
    now destruct (read_jsonl json_loads l2 failure).
  - destruct (strip line); [exact IH|].
    destruct (json_loads _) as [v|e].
    + rewrite IH.
      destruct (read_jsonl json_loads l1 None) as [evs [e|]]; reflexivity.
    + destruct (exn_eqb e JSONDecodeError); [exact IH|reflexivity].
Qed.

Lemma read_jsonl_length (l : list str) (failure : option exn) :
  (List.length (fst (read_jsonl json_loads l failure)) <= List.length l)%nat.
Proof.
  induction l as [|line l IH]; cbn [read_jsonl]; [simpl; lia|].
  destruct (strip line); [simpl; lia|].
  destruct (json_loads _) as [v|e].
  - destruct (read_jsonl json_loads l failure) as [evs r]. simpl in *. lia.
  - destruct (exn_eqb e JSONDecodeError); simpl; lia.
Qed.

Lemma read_jsonl_in (l : list str) (failure : option exn) (v : json) :
  In v (fst (read_jsonl json_loads l failure)) ->
  exists line, In line l /\ strip line <> [] /\ json_loads (strip line) = Ok v.
Proof.
  induction l as [|line l IH]; cbn [read_jsonl]; [intros []|].
  destruct (strip line) as [|c t] eqn:Es.
  - intros Hin. destruct (IH Hin) as (x & Hx & Hs). exists x.
    split; [now right|exact Hs].
  - destruct (json_loads (c :: t)) as [v'|e] eqn:Ev.
    + destruct (read_jsonl json_loads l failure) as [evs r]. cbn [fst] in *.
      intros [<-|Hin].
      * exists line. rewrite Es.
        split; [now left|]. split; [discriminate|exact Ev].
      * destruct (IH Hin) as (x & Hx & Hs). exists x.
        split; [now right|exact Hs].
    + destruct (exn_eqb e JSONDecodeError).
      * intros Hin. destruct (IH Hin) as (x & Hx & Hs). exists x.
        split; [now right|exact Hs].
      * intros [].
Qed.

(** How the generator is ended by [e]: at a line for which [json.loads]
    raises [e], or behind the last line, by the file. *)
Definition stopped_by (l : list str) (failure : option exn) (e : exn) : Prop :=
  (exists before line after,
      l = before ++ line :: after
      /\ json_loads (strip line) = Raise e
      /\ e <> JSONDecodeError
      /\ read_jsonl json_loads before None
         = (fst (read_jsonl json_loads l failure), None))
  \/ (failure = Some e
      /\ read_jsonl json_loads l None
         = (fst (read_jsonl json_loads l failure), None)).

Lemma read_jsonl_stops (l : list str) (failure : option exn) (e : exn) :
  snd (read_jsonl json_loads l failure) = Some e -> stopped_by l failure e.
Proof.
  unfold stopped_by.
  induction l as [|line l IH]; cbn [read_jsonl fst snd]; [now right|].
  destruct (strip line) as [|c t] eqn:Es.
  - intros H.
    destruct (IH H) as [(b & x & af & -> & Hx & He & Hb)|[Hf Hb]].
    + left. exists (line :: b), x, af. cbn [app read_jsonl]. rewrite Es. auto.
    + right. auto.
  - destruct (json_loads (c :: t)) as [v|e'] eqn:Ev.
    + destruct (read_jsonl json_loads l failure) as [evs r] eqn:El.
      cbn [fst snd] in *. intros H.
      destruct (IH H) as [(b & x & af & -> & Hx & He & Hb)|[Hf Hb]].
      * left. exists (line :: b), x, af. cbn [app read_jsonl].
        rewrite Es, Ev, Hb. auto.
      * right. split; [exact Hf|]. now rewrite Hb.
    + destruct (exn_eqb e' JSONDecodeError) eqn:Ee.
      * intros H.
        destruct (IH H) as [(b & x & af & -> & Hx & He & Hb)|[Hf Hb]].
        -- left. exists (line :: b), x, af. cbn [app read_jsonl].
           rewrite Es, Ev, Ee. auto.
        -- right. auto.
      * cbn [fst snd]. intros [= <-]. left.
        exists [], line, l. rewrite Es. repeat split; auto.
        intros ->. discriminate.
Qed.

(** X11.  [read_jsonl] works line by line.  Reading two runs of lines one
    after the other gives the records of the first followed by those of the
    second, unless the first run ends the generator.  A line yields at most
    one record; every record yielded is what [json.loads] makes of a line
    that is not blank once stripped; a line of white space alone and a line
    for which [json.loads] raises [JSONDecodeError] yield nothing and the
    reading goes on.  The generator is ended early only by a line for which
    [json.loads] raises another exception, or by the file when it cannot be
    read on, and in either case after it has yielded the records of the
    lines in front. *)
Theorem read_jsonl_line_by_line :
  forall (l1 l2 : list str) (failure : option exn),
    read_jsonl json_loads (l1 ++ l2) failure
    = read_then (read_jsonl json_loads l1 None)
                (read_jsonl json_loads l2 failure) /\
    (List.length (fst (read_jsonl json_loads l1 failure))
     <= List.length l1)%nat /\
    (forall v, In v (fst (read_jsonl json_loads l1 failure)) ->
       exists line, In line l1 /\ strip line <> [] /\
                    json_loads (strip line) = Ok v) /\
    (forall line,
       strip line = [] \/ json_loads (strip line) = Raise JSONDecodeError ->
       read_jsonl json_loads (line :: l2) failure
       = read_jsonl json_loads l2 failure) /\
    (forall e, snd (read_jsonl json_loads l1 failure) = Some e ->
       stopped_by l1 failure e).
Proof.
  intros l1 l2 failure. split; [apply read_jsonl_app|].
  split; [apply read_jsonl_length|].
  split; [apply read_jsonl_in|]. split; [|apply read_jsonl_stops].
  intros line [Hs|Hs]; cbn [read_jsonl].
  - now rewrite Hs.
  - destruct (strip line); [reflexivity|]. now rewrite Hs.
Qed.

End Jsonl.

(** ** [START_RE] *)

Lemma span_spec (p : char -> bool) (s : str) :
  forall a b, span p s = (a, b) ->
    s = a ++ b /\ Forall (fun c => p c = true) a.
Proof.
  induction s as [|c s IH]; simpl; intros a b H.
  - injection H as <- <-. auto.
  - destruct (p c) eqn:Ec.
    + destruct (span p s) as [a' b'] eqn:Es. injection H as <- <-.
      destruct (IH a' b' eq_refl) as [-> Hall]. auto.
    + injection H as <- <-. auto.
Qed.

Lemma strip_prefix_spec (pre : str) :
  forall s r, strip_prefix pre s = Some r -> s = pre ++ r.
Proof.
  induction pre as [|a pre IH]; simpl; intros s r H.
  - congruence.
  - destruct s as [|c s]; [discriminate|].
    destruct (a =? c)%N eqn:E; [|discriminate].
    apply N.eqb_eq in E. subst c. now rewrite (IH s r H).
Qed.

(** The fraction of a match as it stands in the text: nothing, or a dot and
    its digits. *)
Definition fraction_text (fp : str) : str :=
  match fp with
  | [] => []
  | _ :: _ => 46%N :: fp
  end.

(** What a match of [START_RE] at the head of [s] looks like. *)
Lemma match_here_shape (s ip fp : str) (n : nat) :
  match_here s = Some (ip, fp, n) ->
  exists ws rest,
    s = lit "start:" ++ ws ++ ip ++ fraction_text fp ++ rest /\
    Forall (fun c => is_space c = true) ws /\
    ip <> [] /\
    Forall (fun c => is_digit c = true) ip /\
    Forall (fun c => is_digit c = true) fp /\
    n = List.length (lit "start:" ++ ws ++ ip ++ fraction_text fp).
Proof.
  unfold match_here. intros H.
  destruct (strip_prefix (lit "start:") s) as [r0|] eqn:E0; [|discriminate].
  apply strip_prefix_spec in E0.
  destruct (span is_space r0) as [ws r1] eqn:E1.
  destruct (span_spec _ _ _ _ E1) as [-> Hws].
  destruct (span is_digit r1) as [ip' r2] eqn:E2.
  destruct (span_spec _ _ _ _ E2) as [-> Hip].
  destruct ip' as [|d ip']; [discriminate|].
  assert (Hplain : Some (d :: ip', @nil char,
                         (6 + List.length ws + List.length (d :: ip'))%nat)
                   = Some (ip, fp, n) ->
                   exists ws0 rest,
                     s = lit "start:" ++ ws0 ++ ip ++ fraction_text fp ++ rest /\
                     Forall (fun c => is_space c = true) ws0 /\
                     ip <> [] /\
                     Forall (fun c => is_digit c = true) ip /\
                     Forall (fun c => is_digit c = true) fp /\
                     n = List.length (lit "start:" ++ ws0 ++ ip ++ fraction_text fp)).
  { intros [= <- <- <-]. exists ws, r2. subst s. simpl fraction_text.
    repeat split; auto; try discriminate.
    rewrite !length_app. simpl. lia. }
  destruct r2 as [|c r3]; [now apply Hplain|].
  destruct c as [|pc]; [now apply Hplain|].
  destruct (Pos.eq_dec pc 46) as [->|Hne].
  - destruct (span is_digit r3) as [fp' r4] eqn:E3.
    destruct (span_spec _ _ _ _ E3) as [-> Hfp].
    destruct fp' as [|f fp']; [now apply Hplain|].
    injection H as <- <- <-. exists ws, r4. subst s. simpl fraction_text.
    repeat split; auto; try discriminate.
    + rewrite !length_app. simpl. rewrite ?length_app. simpl. lia.
  - apply Hplain. revert H.
    do 6 (destruct pc as [pc|pc|]; try (intros H; exact H));
      try (exfalso; apply Hne; reflexivity).
Qed.

Section Markers.

Variable unicode_word : char -> bool.

(** The match of [START_RE] at position [i] of [text], if any. *)
Definition marker_at (text : str) (i : nat) : option (str * str * nat) :=
  match_at unicode_word (AnchorSpec.before None text i) (skipn i text).

(** The matches at every position of [s], left to right. *)
Fixpoint occurrences (prev : option char) (s : str) : list (str * str) :=
  match s with
  | [] => []
  | c :: s' =>
      match match_at unicode_word prev s with
      | Some (ip, fp, _) => (ip, fp) :: occurrences (Some c) s'
      | None => occurrences (Some c) s'
      end
  end.

Lemma match_at_here (prev : option char) (s : str) (m : str * str * nat) :
  match_at unicode_word prev s = Some m -> match_here s = Some m.
Proof. unfold match_at. destruct (boundary _ _); congruence. Qed.

Lemma no_s_in_class (p : char -> bool) (l : str) :
  p 115%N = false -> Forall (fun c => p c = true) l ->
  Forall (fun c => c <> 115%N) l.
Proof.
  intros Hp H. induction H as [|c l Hc _ IH]; constructor; auto.
  intros ->. congruence.
Qed.

(** Behind its first character, a match holds no letter [s]: no other match
    can start inside it. *)
Lemma match_tail_no_s (prev : option char) (c : char) (s ip fp : str) (n : nat) :
  match_at unicode_word prev (c :: s) = Some (ip, fp, n) ->
  Forall (fun x => x <> 115%N) (firstn (n - 1) s).
Proof.
  intros H. apply match_at_here, match_here_shape in H.
  destruct H as (ws & rest & Hs & Hws & _ & Hip & Hfp & ->).
  change (lit "start:") with (115%N :: lit "tart:") in *.
  cbn [app] in Hs. injection Hs as _ ->.
  set (m := lit "tart:" ++ ws ++ ip ++ fraction_text fp).
  change (Forall (fun x => x <> 115%N)
            (firstn (S (List.length m) - 1)
                    (lit "tart:" ++ ws ++ ip ++ fraction_text fp ++ rest))).
  replace (lit "tart:" ++ ws ++ ip ++ fraction_text fp ++ rest)
    with (m ++ rest) by (unfold m; now rewrite <- !app_assoc).
  replace (S (List.length m) - 1)%nat with (List.length m + 0)%nat by lia.
  rewrite firstn_app_2. cbn [firstn]. rewrite app_nil_r. unfold m.
  apply Forall_app; split;
    [|apply Forall_app; split; [|apply Forall_app; split]].
  - repeat constructor; discriminate.
  - now apply (no_s_in_class is_space).
  - now apply (no_s_in_class is_digit).
  - destruct fp; [constructor|]. constructor; [discriminate|].
    now apply (no_s_in_class is_digit).
Qed.

Lemma not_s_no_match (prev : option char) (c : char) (s : str) :
  c <> 115%N -> match_at unicode_word prev (c :: s) = None.
Proof.
  intros Hc. destruct (match_at unicode_word prev (c :: s)) as [[[ip fp] n]|] eqn:E;
    [|reflexivity].
  apply match_at_here, match_here_shape in E.
  destruct E as (ws & rest & Hs & _). injection Hs as -> _. now contradiction Hc.
Qed.

(** [finditer] misses nothing by stepping over a match: it yields the match
    at every position that has one. *)
Lemma scan_occurrences (s : str) :
  forall (prev : option char) (skip : nat),
    Forall (fun x => x <> 115%N) (firstn skip s) ->
    scan unicode_word prev skip s = occurrences prev s.
Proof.
  induction s as [|c s IH]; intros prev skip Hskip; [reflexivity|].
  cbn [scan occurrences]. destruct skip as [|k].
  - destruct (match_at unicode_word prev (c :: s)) as [[[ip fp] n]|] eqn:E.
    + f_equal. apply IH. now apply (match_tail_no_s prev c s ip fp n).
    + apply IH. constructor.
  - cbn [firstn] in Hskip. inversion Hskip as [|? ? Hc Hk]; subst.
    rewrite (not_s_no_match prev c s Hc). now apply IH.
Qed.

Lemma finditer_occurrences (text : str) :
  finditer unicode_word text = occurrences None text.
Proof. apply scan_occurrences. constructor. Qed.

Lemma before_cons (prev : option char) (c : char) (s : str) (i : nat) :
  AnchorSpec.before prev (c :: s) (S i) = AnchorSpec.before (Some c) s i.
Proof. now destruct i. Qed.

Lemma occurrences_sound (s : str) :
  forall (prev : option char) (ip fp : str),
    In (ip, fp) (occurrences prev s) ->
    exists i n,
      match_at unicode_word (AnchorSpec.before prev s i) (skipn i s) = Some (ip, fp, n).
Proof.
  induction s as [|c s IH]; intros prev ip fp Hin; [contradiction|].
  cbn [occurrences] in Hin.
  assert (Hrest : In (ip, fp) (occurrences (Some c) s) ->
                  exists i n,
                    match_at unicode_word (AnchorSpec.before prev (c :: s) i)
                             (skipn i (c :: s)) = Some (ip, fp, n)).
  { intros H. destruct (IH (Some c) ip fp H) as (i & n & Hi).
    exists (S i), n. now rewrite before_cons. }
  destruct (match_at unicode_word prev (c :: s)) as [[[ip' fp'] n]|] eqn:E;
    [|now apply Hrest].
  destruct Hin as [[= <- <-]|Hin]; [|now apply Hrest].
  exists 0%nat, n. exact E.
Qed.

Lemma occurrences_none (s : str) :
  forall prev : option char,
    (forall i, match_at unicode_word (AnchorSpec.before prev s i) (skipn i s) = None) ->
    occurrences prev s = [].
Proof.
  induction s as [|c s IH]; intros prev H; [reflexivity|].
  cbn [occurrences].
  pose proof (H 0%nat) as H0. cbn [AnchorSpec.before skipn] in H0.
  rewrite H0. apply IH.
  intros i. specialize (H (S i)). now rewrite before_cons in H.
Qed.

Lemma occurrences_first (s : str) :
  forall (prev : option char) (i : nat) (ip fp : str) (n : nat),
    match_at unicode_word (AnchorSpec.before prev s i) (skipn i s) = Some (ip, fp, n) ->
    (forall j, (j < i)%nat ->
               match_at unicode_word (AnchorSpec.before prev s j) (skipn j s) = None) ->
    hd_error (occurrences prev s) = Some (ip, fp).
Proof.
  induction s as [|c s IH]; intros prev i ip fp n Hi Hbefore.
  - destruct i; simpl in Hi; apply match_at_here in Hi; discriminate.
  - cbn [occurrences]. destruct i as [|i].
    + simpl in Hi. now rewrite Hi.
    + pose proof (Hbefore 0%nat (Nat.lt_0_succ i)) as H0.
      cbn [AnchorSpec.before skipn] in H0. rewrite H0.
      apply (IH (Some c) i ip fp n).
      * now rewrite before_cons in Hi.
      * intros j Hj. specialize (Hbefore (S j)).
        rewrite before_cons in Hbefore. apply Hbefore. lia.
Qed.

Lemma hd_error_rev_cons {A} (x : A) (l : list A) (y : A) :
  hd_error (rev l) = Some y -> hd_error (rev (x :: l)) = Some y.
Proof. simpl. destruct (rev l); simpl; congruence. Qed.

Lemma occurrences_last (s : str) :
  forall (prev : option char) (i : nat) (ip fp : str) (n : nat),
    match_at unicode_word (AnchorSpec.before prev s i) (skipn i s) = Some (ip, fp, n) ->
    (forall j, (i < j)%nat ->
               match_at unicode_word (AnchorSpec.before prev s j) (skipn j s) = None) ->
    hd_error (rev (occurrences prev s)) = Some (ip, fp).
Proof.
  induction s as [|c s IH]; intros prev i ip fp n Hi Hafter.
  - destruct i; simpl in Hi; apply match_at_here in Hi; discriminate.
  - cbn [occurrences]. destruct i as [|i].
    + simpl in Hi. rewrite Hi.
      rewrite (occurrences_none s (Some c)); [reflexivity|].
      intros j. specialize (Hafter (S j)). rewrite before_cons in Hafter.
      apply Hafter. lia.
    + assert (Hrec : hd_error (rev (occurrences (Some c) s)) = Some (ip, fp)).
      { apply (IH (Some c) i ip fp n).
        - now rewrite before_cons in Hi.
        - intros j Hj. specialize (Hafter (S j)).
          rewrite before_cons in Hafter. apply Hafter. lia. }
      destruct (match_at unicode_word prev (c :: s)) as [[[ip' fp'] n']|];
        [now apply hd_error_rev_cons|exact Hrec].
Qed.

Lemma no_head_nil {A} (l : list A) (pick_first : bool) :
  (if pick_first then hd_error l else hd_error (rev l)) = None -> l = [].
Proof.
  destruct pick_first; destruct l as [|x l]; simpl; try congruence.
  destruct (rev l); discriminate.
Qed.

Lemma extract_as_occurrence (text prefer : str) :
  extract_ffmpeg_start_ts unicode_word text prefer
  = option_map (fun m => float_of_decimal (fst m) (snd m))
      (if str_eqb prefer (lit "first")
       then hd_error (occurrences None text)
       else hd_error (rev (occurrences None text))).
Proof.
  unfold extract_ffmpeg_start_ts. rewrite finditer_occurrences.
  destruct (str_eqb prefer (lit "first"));
    match goal with
    | |- context [hd_error ?l] => destruct (hd_error l) as [[ip fp]|]
    end; reflexivity.
Qed.

(** X12.  [extract_ffmpeg_start_ts] returns [None] exactly when [START_RE]
    matches at no position of the log, under either policy. *)
Theorem no_start_iff_no_marker :
  forall (text prefer : str),
    extract_ffmpeg_start_ts unicode_word text prefer = None <->
    (forall i, marker_at text i = None).
Proof.
  intros text prefer. split.
  - intros H. apply AnchorSpec.scan_nil_no_match.
    fold (finditer unicode_word text). rewrite finditer_occurrences.
    rewrite extract_as_occurrence in H.
    apply (no_head_nil _ (str_eqb prefer (lit "first"))).
    destruct (str_eqb prefer (lit "first"));
      match goal with
      | |- hd_error ?l = None => destruct (hd_error l); [discriminate|reflexivity]
      end.
  - apply AnchorSpec.extract_none.
Qed.

(** X13.  A start time that [extract_ffmpeg_start_ts] returns is the value
    of a decimal that stands in the log behind [start:] at some position:
    an integer part of at least one digit and a fraction of digits only, so
    that the conversion [float(m.group(1))] is always applied to a
    well-formed number. *)
Theorem start_comes_from_a_marker :
  forall (text prefer : str) (x : float),
    extract_ffmpeg_start_ts unicode_word text prefer = Some x ->
    exists i ip fp n,
      marker_at text i = Some (ip, fp, n) /\
      x = float_of_decimal ip fp /\
      ip <> [] /\
      Forall (fun c => is_digit c = true) ip /\
      Forall (fun c => is_digit c = true) fp.
Proof.
  intros text prefer x H. rewrite extract_as_occurrence in H.
  assert (Hin : exists ip fp, In (ip, fp) (occurrences None text) /\
                              x = float_of_decimal ip fp).
  { destruct (str_eqb prefer (lit "first")).
    - destruct (occurrences None text) as [|[ip fp] l]; [discriminate|].
      injection H as <-. exists ip, fp. split; [now left|reflexivity].
    - destruct (rev (occurrences None text)) as [|[ip fp] l] eqn:E;
        [discriminate|].
      injection H as <-. exists ip, fp. split; [|reflexivity].
      apply in_rev. rewrite E. now left. }
  destruct Hin as (ip & fp & Hin & ->).
  destruct (occurrences_sound text None ip fp Hin) as (i & n & Hi).
  exists i, ip, fp, n. split; [exact Hi|]. split; [reflexivity|].
  apply match_at_here, match_here_shape in Hi.
  destruct Hi as (ws & rest & _ & _ & Hne & Hip & Hfp & _). auto.
Qed.

(** X14.  The policy ["first"] takes the leftmost marker of the log; any
    other policy takes the rightmost one. *)
Theorem policy_takes_leftmost_or_rightmost :
  forall (text prefer : str) (i : nat) (ip fp : str) (n : nat),
    marker_at text i = Some (ip, fp, n) ->
    ((forall j, (j < i)%nat -> marker_at text j = None) ->
     extract_ffmpeg_start_ts unicode_word text (lit "first")
     = Some (float_of_decimal ip fp)) /\
    (prefer <> lit "first" ->
     (forall j, (i < j)%nat -> marker_at text j = None) ->
     extract_ffmpeg_start_ts unicode_word text prefer
     = Some (float_of_decimal ip fp)).
Proof.
  intros text prefer i ip fp n Hi. split.
  - intros Hleft. rewrite extract_as_occurrence. rewrite str_eqb_refl.
    now rewrite (occurrences_first text None i ip fp n Hi Hleft).
  - intros Hp Hright. rewrite extract_as_occurrence.
    apply str_eqb_neq in Hp. rewrite Hp.
    now rewrite (occurrences_last text None i ip fp n Hi Hright).
Qed.

End Markers.

(** ** Concrete logs *)

Definition two_markers : str := lit "start: 1.5 start: 12.345000".

Lemma start_comes_from_a_marker_witness :
  exists i ip fp n,
    marker_at AnchorSpec.ascii_only two_markers i = Some (ip, fp, n) /\
    12.345%float = float_of_decimal ip fp.
Proof.
  destruct (start_comes_from_a_marker AnchorSpec.ascii_only two_markers
              (lit "last") 12.345%float eq_refl)
    as (i & ip & fp & n & Hi & Hx & _).
  exists i, ip, fp, n. auto.
Defined.

Lemma policy_takes_leftmost_or_rightmost_witness :
  extract_ffmpeg_start_ts AnchorSpec.ascii_only two_markers (lit "first")
    = Some 1.5%float /\
  extract_ffmpeg_start_ts AnchorSpec.ascii_only two_markers (lit "last")
    = Some 12.345%float.
Proof.
  split.
  - apply (proj1 (policy_takes_leftmost_or_rightmost AnchorSpec.ascii_only
                    two_markers (lit "first") 0 (lit "1") (lit "5") 10 eq_refl)).
    intros j Hj. lia.
  - apply (proj2 (policy_takes_leftmost_or_rightmost AnchorSpec.ascii_only
                    two_markers (lit "last") 11 (lit "12") (lit "345000") 16
                    eq_refl)).
    + vm_compute. discriminate.
    + intros j Hj.
      do 12 (destruct j as [|j]; [lia|]).
      do 16 (destruct j as [|j]; [reflexivity|]).
      unfold marker_at, match_at.
      match goal with
      | |- (if ?b then _ else _) = _ => destruct b; reflexivity
      end.
Defined.

End LogSpec.

(* ================================================================== *)
(** * More on the reconciliation run *)
(* ================================================================== *)

Module RunSpec.
Import Py PyFacts ParserMac ReconcileSpec.
Local Open Scope py_scope.

Section Run.

Variable unicode_word : char -> bool.
Variable json_loads : str -> result json.
Variable float_of_str : str -> option float.
Variable py_str : json -> str.
Variable path_resolve : str -> str.
Variable w : World.
Variable a : Args.

Definition run : Outcome :=
  main unicode_word json_loads float_of_str py_str path_resolve w a.

Definition body := step float_of_str py_str path_resolve w a.
Definition rounds := loop float_of_str py_str path_resolve w a.

(** ** When the output is opened *)

Lemma host_seconds_ok (c : Clock) (m : float) :
  (exists x, host_seconds_to_epoch c m = Ok x) <->
  (exists h, host_time_seconds_now c = Ok h).
Proof.
  unfold host_seconds_to_epoch.
  destruct (host_time_seconds_now c) as [h|e]; cbn [bind]; split;
    intros [x H]; try discriminate; eauto.
Qed.

(** The steps of [main] in front of the [with] block all go through. *)
Definition ready : Prop :=
  missing w = false /\
  images_mkdir w = None /\
  out_mkdir w = None /\
  log_read_error w = None /\
  (exists i m, LogSpec.marker_at unicode_word (ffmpeg_log w) i = Some m) /\
  (exists h, host_time_seconds_now (clock w) = Ok h) /\
  ffmpeg_found w = true.

Lemma marker_found (m : float) :
  extract_ffmpeg_start_ts unicode_word (ffmpeg_log w) (prefer a) = Some m ->
  exists i x, LogSpec.marker_at unicode_word (ffmpeg_log w) i = Some x.
Proof.
  intros Em. rewrite LogSpec.extract_as_occurrence in Em.
  assert (Hin : exists ip fp,
             In (ip, fp) (LogSpec.occurrences unicode_word None (ffmpeg_log w))).
  { destruct (str_eqb (prefer a) (lit "first")).
    - destruct (LogSpec.occurrences unicode_word None (ffmpeg_log w))
        as [|[ip fp] l]; [discriminate|].
      exists ip, fp. now left.
    - destruct (rev (LogSpec.occurrences unicode_word None (ffmpeg_log w)))
        as [|[ip fp] l] eqn:E; [discriminate|].
      exists ip, fp. apply in_rev. rewrite E. now left. }
  destruct Hin as (ip & fp & Hin).
  destruct (LogSpec.occurrences_sound unicode_word _ None ip fp Hin)
    as (i & n & Hi).
  now exists i, (ip, fp, n).
Qed.

Lemma marker_extracted (i : nat) (x : str * str * nat) :
  LogSpec.marker_at unicode_word (ffmpeg_log w) i = Some x ->
  exists m,
    extract_ffmpeg_start_ts unicode_word (ffmpeg_log w) (prefer a) = Some m.
Proof.
  intros Hi.
  destruct (extract_ffmpeg_start_ts unicode_word (ffmpeg_log w) (prefer a))
    as [m|] eqn:Em; [now exists m|].
  exfalso.
  assert (Hnone : finditer unicode_word (ffmpeg_log w) = []).
  { unfold extract_ffmpeg_start_ts in Em.
    apply (LogSpec.no_head_nil _ (str_eqb (prefer a) (lit "first"))).
    destruct (str_eqb (prefer a) (lit "first"));
      match type of Em with
      | match ?x with _ => _ end = None =>
          destruct x as [[ip fp]|]; [discriminate|reflexivity]
      end. }
  unfold LogSpec.marker_at in Hi.
  rewrite (AnchorSpec.scan_nil_no_match unicode_word _ None Hnone i) in Hi.
  discriminate.
Qed.

Lemma reconcile_opened (anchor : float) :
  exists recs,
    out_jsonl (reconcile json_loads float_of_str py_str path_resolve w a anchor)
    = Some recs.
Proof.
  unfold reconcile.
  destruct (read_jsonl json_loads (jsonl_lines w) (jsonl_error w))
      as [evs stopped].
  destruct (loop _ _ _ _ _ _ _ _ _) as [st e]. simpl. eauto.
Qed.

(** X15.  A run opens (and truncates) its output log exactly when the three
    required files exist, the two directories can be created, the encoder
    log can be read and [START_RE] matches somewhere in it, the host clock
    can be read, [ffmpeg] is found and the output file can be opened for
    writing.  In every other case the run ends with an exception and the
    output log is not opened. *)
Theorem output_opened_iff :
  ((exists recs, out_jsonl run = Some recs) <-> ready /\ out_open w = None) /\
  (out_jsonl run = None -> exists e, raised run = Some e).
Proof.
  unfold run, main, video_start_epoch, ready. split; [split|].
  - intros [recs H].
    destruct (missing w); [discriminate|].
    destruct (images_mkdir w); [discriminate|].
    destruct (out_mkdir w); [discriminate|].
    destruct (log_read_error w); [discriminate|].
    destruct (extract_ffmpeg_start_ts unicode_word (ffmpeg_log w) (prefer a))
      as [m|] eqn:Em; [|discriminate].
    destruct (host_seconds_to_epoch (clock w) m) as [x|e] eqn:Eh;
      [|discriminate].
    destruct (ffmpeg_found w); [|discriminate].
    destruct (out_open w); [discriminate|].
    repeat split.
    + exact (marker_found m Em).
    + apply (host_seconds_ok (clock w) m). eauto.
  - intros ((Hmiss & Him & Hom & Hlog & (i & m & Hi) & Hclock & Hff) & Hopen).
    rewrite Hmiss, Him, Hom, Hlog, Hff, Hopen.
    destruct (marker_extracted i m Hi) as [x ->].
    apply (host_seconds_ok (clock w) x) in Hclock.
    destruct Hclock as [anchor ->].
    apply reconcile_opened.
  - destruct (missing w); [intros _; simpl; eauto|].
    destruct (images_mkdir w); [intros _; simpl; eauto|].
    destruct (out_mkdir w); [intros _; simpl; eauto|].
    destruct (log_read_error w); [intros _; simpl; eauto|].
    destruct (extract_ffmpeg_start_ts unicode_word (ffmpeg_log w) (prefer a))
      as [m|]; [|intros _; simpl; eauto].
    destruct (host_seconds_to_epoch (clock w) m) as [x|e'];
      [|intros _; simpl; eauto].
    destruct (ffmpeg_found w); [|intros _; simpl; eauto].
    destruct (out_open w); [intros _; simpl; eauto|].
    destruct (reconcile_opened x) as [recs ->]. discriminate.
Qed.

(** ** How the loop is ended early *)

(** The loop over two runs of records is the loop over the first, carried
    on over the second unless an exception ended it. *)
Lemma rounds_app (anchor : float) (l1 l2 : list json) :
  forall (st : Loop) (i : nat),
    rounds anchor st i (l1 ++ l2)
    = match rounds anchor st i l1 with
      | (st', None) => rounds anchor st' (i + List.length l1) l2
      | (st', Some e) => (st', Some e)
      end.
Proof.
  unfold rounds.
  induction l1 as [|ev l1 IH]; intros st i; cbn [loop app List.length].
  - now rewrite Nat.add_0_r.
  - destruct (step float_of_str py_str path_resolve w a anchor st i ev)
      as [st'|e]; [|reflexivity].
    rewrite IH. now rewrite Nat.add_succ_comm.
Qed.

(** X16.  A record that is valid JSON but not an object ends the run with
    [AttributeError] at that record: the lines written for the records in
    front of it stay in the output as they are, and no record behind it is
    looked at. *)
Theorem non_object_record_ends_run :
  forall (anchor : float) (st : Loop) (i : nat) (pre post : list json)
         (ev : json),
    (forall d, ev <> JObj d) ->
    rounds anchor st i (pre ++ ev :: post)
    = match rounds anchor st i pre with
      | (st', None) => (st', Some AttributeError)
      | (st', Some e) => (st', Some e)
      end.
Proof.
  intros anchor st i pre post ev Hev. rewrite rounds_app.
  destruct (rounds anchor st i pre) as [st' [e|]]; [reflexivity|].
  unfold rounds. cbn [loop]. unfold step.
  destruct ev; try reflexivity. now contradiction (Hev d).
Qed.

Lemma int_of_float_raises (x : float) (e : exn) :
  int_of_float x = Raise e ->
  (e = ValueError /\ is_nan x = true) \/
  (e = OverflowError /\ is_infinity x = true).
Proof.
  unfold int_of_float. intros H.
  destruct (Prim2SF x) as [s|s| |s m ex] eqn:E; try discriminate.
  - right. injection H as <-. split; [reflexivity|].
    unfold is_infinity. rewrite eqb_spec, abs_spec, E.
    destruct s; reflexivity.
  - left. injection H as <-. split; [reflexivity|].
    destruct (is_nan x) eqn:En; [reflexivity|].
    apply FloatOrder.is_nan_false in En. now contradiction En.
Qed.

(** X17.  The body of the loop raises for five reasons only: the record is
    not an object ([AttributeError]); its [ts] is an integer too large for a
    float ([OverflowError]); an include-list is given and the type of the
    record is a list or a dict ([TypeError]); the record passed every test
    and [ts * 1000] is a NaN ([ValueError]) or an infinity
    ([OverflowError]), so that [int(ts*1000)] fails; or the frame of the
    record was extracted and serialising or writing its line raises (the
    exception is then that one, whatever it is). *)
Theorem body_raises_only_for :
  forall (anchor : float) (st : Loop) (i : nat) (ev : json) (e : exn),
    body anchor st i ev = Raise e ->
    (e = AttributeError /\ forall d, ev <> JObj d) \/
    exists d,
      ev = JObj d /\
      ((e = OverflowError /\
        exists z, get d (lit "ts") = JInt z /\
                  float_of_int z = Raise OverflowError) \/
       (e = TypeError /\ include_set a <> None /\
        HandlerSpec.unhashable (event_type d) = true) \/
       (exists ts,
           sanitize_ts float_of_str (get d (lit "ts")) = Ok (Some ts) /\
           (ts <? anchor)%float = false /\
           excluded a (event_type d) = Ok false /\
           ((e = ValueError /\ is_nan (ts * 1000) = true) \/
            (e = OverflowError /\ is_infinity (ts * 1000) = true) \/
            (exists ms,
                int_of_float (ts * 1000) = Ok ms /\
                let p := frame_path py_str w a (counter st) d ms in
                extract_frame_ok w i (ts - anchor + offset_s a) p = true /\
                write_error w i
                  (dict_set d (lit "frame_path") (JStr (path_resolve p)))
                = Some e)))).
Proof.
  intros anchor st i ev e H. unfold body, step in H.
  destruct ev as [| | | | | |d];
    try (left; split; [congruence|intros d; discriminate]).
  right. exists d. split; [reflexivity|].
  destruct (sanitize_ts float_of_str (get d (lit "ts"))) as [[ts|]|e0] eqn:Ets;
    cbn [bind] in H; try discriminate.
  - destruct (ts <? anchor)%float eqn:Ea; [discriminate|].
    fold (event_type d) in H.
    destruct (excluded a (event_type d)) as [[|]|e1] eqn:Eex; cbn [bind] in H;
      try discriminate.
    + destruct (ts - anchor + offset_s a <? 0)%float; [discriminate|].
      destruct (ts - anchor + offset_s a - last_rel st <? min_gap_s a)%float;
        [discriminate|].
      destruct (int_of_float (ts * 1000)%float) as [ms|e2] eqn:Ems;
        cbn [bind] in H.
      * match type of H with
        | (if ?c then _ else _) = _ => destruct c eqn:Eok; [|discriminate]
        end.
        match type of H with
        | match ?c with _ => _ end = _ =>
            destruct c as [e2|] eqn:Ew; [|discriminate]
        end.
        injection H as <-. right. right. exists ts.
        repeat split; auto. right. right. exists ms.
        split; [exact Ems|]. split; [exact Eok|exact Ew].
      * injection H as <-. right. right. exists ts.
        repeat split; auto.
        destruct (int_of_float_raises _ _ Ems) as [Hr|Hr]; auto.
    + injection H as <-. right. left.
      unfold excluded in Eex.
      destruct (include_set a) as [l|]; [|discriminate].
      destruct (in_str_set (event_type d) l) as [b|e2] eqn:Ein;
        cbn [bind] in Eex; [discriminate|].
      injection Eex as <-.
      destruct (HandlerSpec.in_str_set_raises _ _ _ Ein) as [-> Hun].
      repeat split; auto. discriminate.
  - injection H as <-. left. unfold sanitize_ts in Ets.
    destruct (get d (lit "ts")) as [| |z| | | |]; try discriminate.
    destruct (float_of_int z) as [f|e2] eqn:Ef; cbn [bind] in Ets;
      [discriminate|].
    injection Ets as <-.
    assert (e2 = OverflowError) as ->.
    { unfold float_of_int in Ef.
      destruct (binary_normalize prec emax z 0 false); congruence. }
    split; [reflexivity|]. now exists z.
Qed.

Lemma is_nan_true (x : float) : is_nan x = true -> Prim2SF x = S754_nan.
Proof.
  intros H. destruct (Prim2SF x) as [s|s| |s m e] eqn:E; try reflexivity;
    assert (Hf : is_nan x = false)
      by (apply FloatOrder.is_nan_false; rewrite E; discriminate);
    congruence.
Qed.

Lemma nan_not_less (x y : float) : is_nan x = true -> (x <? y)%float = false.
Proof.
  intros H. rewrite ltb_spec, (is_nan_true x H). reflexivity.
Qed.

Lemma nan_spreads (x y : float) :
  is_nan x = true ->
  is_nan (x - y) = true /\ is_nan (x + y) = true /\ is_nan (x * y) = true.
Proof.
  intros H. apply is_nan_true in H.
  assert (Hn : forall z, Prim2SF z = S754_nan -> is_nan z = true).
  { intros z Hz. destruct (is_nan z) eqn:En; [reflexivity|].
    apply FloatOrder.is_nan_false in En. now contradiction En. }
  repeat split; apply Hn.
  - now rewrite sub_spec, H.
  - now rewrite add_spec, H.
  - now rewrite mul_spec, H.
Qed.

(** X18.  A record whose [ts] is a NaN (the JSON text [NaN] is accepted by
    [json.loads]) is not discarded: unless its type is filtered out, it
    passes every comparison and ends the whole run with [ValueError] when
    its frame is to be named. *)
Theorem nan_timestamp_ends_run :
  forall (anchor : float) (st : Loop) (i : nat) (d : dict) (ts : float)
         (post : list json),
    sanitize_ts float_of_str (get d (lit "ts")) = Ok (Some ts) ->
    is_nan ts = true ->
    excluded a (event_type d) = Ok false ->
    body anchor st i (JObj d) = Raise ValueError /\
    rounds anchor st i (JObj d :: post) = (st, Some ValueError).
Proof.
  intros anchor st i d ts post Hts Hnan Hex.
  assert (Hbody : body anchor st i (JObj d) = Raise ValueError).
  { unfold body, step. rewrite Hts. cbn [bind].
    rewrite (nan_not_less ts anchor Hnan).
    fold (event_type d). rewrite Hex. cbn [bind].
    destruct (nan_spreads ts anchor Hnan) as (Hsub & _ & _).
    destruct (nan_spreads _ (offset_s a) Hsub) as (_ & Hadd & _).
    destruct (nan_spreads _ (last_rel st) Hadd) as (Hgap & _ & _).
    destruct (nan_spreads ts 1000 Hnan) as (_ & _ & Hmul).
    rewrite (nan_not_less _ 0 Hadd), (nan_not_less _ (min_gap_s a) Hgap).
    unfold int_of_float. now rewrite (is_nan_true _ Hmul). }
  split; [exact Hbody|].
  unfold rounds. cbn [loop]. unfold body in Hbody. now rewrite Hbody.
Qed.

End Run.

(** ** Concrete runs *)

Definition nan_event : json :=
  JObj [(lit "type", JStr (lit "click")); (lit "ts", JFloat nan)].

Lemma non_object_record_ends_run_witness :
  rounds no_float no_str as_is (world4 marked_log always_ok) args200
         1700000100 loop_init 0 [click_at_101; JInt 5; typing_at_102]
  = (mkLoop 2 1 [line1], Some AttributeError).
Proof.
  change [click_at_101; JInt 5; typing_at_102]
    with ([click_at_101] ++ JInt 5 :: [typing_at_102]).
  rewrite (non_object_record_ends_run no_float no_str as_is
             (world4 marked_log always_ok) args200 1700000100 loop_init 0
             [click_at_101] [typing_at_102] (JInt 5)).
  - vm_compute. reflexivity.
  - intros d. discriminate.
Defined.

Lemma body_raises_only_for_witness :
  exists ts,
    sanitize_ts no_float (JFloat nan) = Ok (Some ts) /\
    is_nan (ts * 1000) = true.
Proof.
  destruct (body_raises_only_for no_float no_str as_is
              (world4 marked_log always_ok) args200 1700000100 loop_init 0
              nan_event ValueError eq_refl)
    as [[H _]|(d & Hd & [[H _]|[[H _]|(ts & Hts & _ & _ & Hc)]])];
    try discriminate.
  injection Hd as <-.
  destruct Hc as [[_ Hn]|[[H _]|(ms & Hms & _)]]; try discriminate.
  - exists ts. split; [exact Hts|exact Hn].
  - injection Hts as <-. vm_compute in Hms. discriminate.
Defined.

Lemma nan_timestamp_ends_run_witness :
  rounds no_float no_str as_is (world4 marked_log always_ok) args200
         1700000100 loop_init 0 [nan_event; click_at_101]
  = (loop_init, Some ValueError).
Proof.
  apply (nan_timestamp_ends_run no_float no_str as_is
           (world4 marked_log always_ok) args200 1700000100 loop_init 0
           [(lit "type", JStr (lit "click")); (lit "ts", JFloat nan)] nan
           [click_at_101]); reflexivity.
Defined.

(** ** Frame names *)

Lemma uint_str_digits (u : Decimal.uint) :
  Forall (fun c => is_digit c = true) (uint_str u).
Proof. induction u; simpl; constructor; auto. Qed.

Lemma uint_str_inj (u1 : Decimal.uint) :
  forall u2, uint_str u1 = uint_str u2 -> u1 = u2.
Proof.
  induction u1; intros u2 H; destruct u2; simpl in H; try discriminate;
    try reflexivity; injection H as H; f_equal; auto.
Qed.

(** [k] zeros in front of a numeral. *)
Fixpoint zeros (k : nat) (u : Decimal.uint) : Decimal.uint :=
  match k with
  | O => u
  | S k' => Decimal.D0 (zeros k' u)
  end.

Lemma zeros_str (k : nat) (u : Decimal.uint) :
  repeat 48%N k ++ uint_str u = uint_str (zeros k u).
Proof. induction k as [|k IH]; simpl; [reflexivity|]. now rewrite IH. Qed.

Lemma zeros_value (k : nat) (u : Decimal.uint) :
  N.of_uint (zeros k u) = N.of_uint u.
Proof. induction k as [|k IH]; simpl; [reflexivity|]. exact IH. Qed.

Lemma format_06d_nonneg (z : Z) :
  0 <= z ->
  exists k, format_06d z = uint_str (zeros k (N.to_uint (Z.to_N z))).
Proof.
  intros Hz. unfold format_06d, nat_digits.
  destruct z as [|p|p]; try lia; eexists; apply zeros_str.
Qed.

Lemma format_06d_digits (z : Z) :
  0 <= z -> Forall (fun c => is_digit c = true) (format_06d z).
Proof.
  intros Hz. destruct (format_06d_nonneg z Hz) as [k ->].
  apply uint_str_digits.
Qed.

Lemma format_06d_inj (z1 z2 : Z) :
  0 <= z1 -> 0 <= z2 -> format_06d z1 = format_06d z2 -> z1 = z2.
Proof.
  intros H1 H2 H.
  destruct (format_06d_nonneg z1 H1) as [k1 E1].
  destruct (format_06d_nonneg z2 H2) as [k2 E2].
  rewrite E1, E2 in H. apply uint_str_inj in H.
  apply (f_equal N.of_uint) in H.
  rewrite !zeros_value, !DecimalN.Unsigned.of_to in H. lia.
Qed.

(** Two runs of digits, each closed by the same character that is no digit,
    are the same run when what follows agrees. *)
Lemma digits_then_mark (sep : char) (d1 : str) :
  is_digit sep = false ->
  forall d2 r1 r2,
    Forall (fun c => is_digit c = true) d1 ->
    Forall (fun c => is_digit c = true) d2 ->
    d1 ++ sep :: r1 = d2 ++ sep :: r2 -> d1 = d2.
Proof.
  intros Hsep. induction d1 as [|c d1 IH]; intros d2 r1 r2 H1 H2 H.
  - destruct d2 as [|c2 d2]; [reflexivity|].
    simpl in H. injection H as -> _. inversion H2; congruence.
  - destruct d2 as [|c2 d2].
    + simpl in H. injection H as -> _. inversion H1; congruence.
    + simpl in H. injection H as -> H.
      inversion H1; inversion H2; subst. f_equal. now apply (IH d2 r1 r2).
Qed.

Lemma frame_name_counter (py_str : json -> str) (a : Args)
    (c1 c2 : Z) (t1 t2 : json) (ms1 ms2 : Z) :
  0 <= c1 -> 0 <= c2 ->
  frame_name py_str a c1 t1 ms1 = frame_name py_str a c2 t2 ms2 -> c1 = c2.
Proof.
  intros H1 H2 H. unfold frame_name in H.
  apply format_06d_inj; auto.
  change (lit "_") with [95%N] in H. cbn [app] in H.
  apply (digits_then_mark 95%N _ eq_refl _ _ _
           (format_06d_digits c1 H1) (format_06d_digits c2 H2) H).
Qed.

(** A string without the path separator: as a file name it is a single
    path component. *)
Definition no_slash (s : str) : Prop := Forall (fun c => c <> 47%N) s.

Lemma digits_no_slash (s : str) :
  Forall (fun c => is_digit c = true) s -> no_slash s.
Proof.
  unfold no_slash. apply Forall_impl. intros c Hc ->. discriminate.
Qed.

Lemma int_str_no_slash (z : Z) : no_slash (int_str z).
Proof.
  unfold int_str, nat_digits.
  destruct z; try (apply digits_no_slash, uint_str_digits).
  apply Forall_app. split.
  - repeat constructor. discriminate.
  - apply digits_no_slash, uint_str_digits.
Qed.

Lemma frame_name_no_slash (py_str : json -> str) (a : Args) (cnt : Z)
    (t : json) (ms : Z) :
  0 <= cnt -> no_slash (format_value py_str t) -> no_slash (ext a) ->
  no_slash (frame_name py_str a cnt t ms).
Proof.
  intros Hc Ht He. unfold frame_name, no_slash.
  apply Forall_app. split; [apply digits_no_slash, format_06d_digits, Hc|].
  apply Forall_app. split; [repeat constructor; discriminate|].
  apply Forall_app. split; [exact Ht|].
  apply Forall_app. split; [repeat constructor; discriminate|].
  apply Forall_app. split; [apply int_str_no_slash|].
  apply Forall_app. split; [repeat constructor; discriminate|exact He].
Qed.

Section Names.

Variable unicode_word : char -> bool.
Variable json_loads : str -> result json.
Variable float_of_str : str -> option float.
Variable py_str : json -> str.
Variable path_resolve : str -> str.
Variable w : World.
Variable a : Args.

(** X19.  No two frames of a run are given the same file name: the lines of
    the output log carry the counters 1, 2, 3, ... and the names made from
    two different counters are different strings, whatever the types and
    timestamps of the events are.  When the text of the event type and the
    extension hold no ['/'], the name holds none either: it is a single
    path component under the images directory. *)
Theorem frame_names_never_collide :
  forall (recs : list Written) (k1 k2 : nat) (r1 r2 : Written),
    out_jsonl (main unicode_word json_loads float_of_str py_str path_resolve w a)
      = Some recs ->
    nth_error recs k1 = Some r1 -> nth_error recs k2 = Some r2 ->
    k1 <> k2 ->
    w_counter r1 <> w_counter r2 /\
    forall (t1 t2 : json) (ms1 ms2 : Z),
      frame_name py_str a (w_counter r1) t1 ms1
      <> frame_name py_str a (w_counter r2) t2 ms2 /\
      (no_slash (format_value py_str t1) -> no_slash (ext a) ->
       no_slash (frame_name py_str a (w_counter r1) t1 ms1)).
Proof.
  intros recs k1 k2 r1 r2 Hout H1 H2 Hk.
  destruct (main_written unicode_word json_loads float_of_str py_str
              path_resolve w a recs Hout) as (anchor & j & st & _ & Hinv & ->).
  destruct (inv_kept _ _ _ _ _ _ _ _ _ Hinv k1 r1 H1) as (Hc1 & _).
  destruct (inv_kept _ _ _ _ _ _ _ _ _ Hinv k2 r2 H2) as (Hc2 & _).
  split; [lia|].
  intros t1 t2 ms1 ms2. split.
  - intros H. apply frame_name_counter in H; lia.
  - apply frame_name_no_slash. lia.
Qed.

End Names.

Lemma frame_names_never_collide_witness :
  w_counter line1 <> w_counter line2 /\
  frame_name no_str args200 (w_counter line1) (JStr (lit "click")) 1700000101000
  <> frame_name no_str args200 (w_counter line2) (JStr (lit "click")) 1700000101000
  /\ no_slash (frame_name no_str args200 (w_counter line1) (JStr (lit "click"))
                 1700000101000).
Proof.
  destruct (frame_names_never_collide AnchorSpec.ascii_only loads4 no_float
              no_str as_is (world4 marked_log always_ok) args200 [line1; line2]
              0%nat 1%nat line1 line2 run4_output eq_refl eq_refl)
    as [Hc Hn]; [discriminate|].
  split; [exact Hc|].
  destruct (Hn (JStr (lit "click")) (JStr (lit "click")) 1700000101000
               1700000101000) as [Hd Hs].
  split; [exact Hd|].
  apply Hs; repeat constructor; discriminate.
Defined.

End RunSpec.

(* ================================================================== *)
(** * Signs of binary64 results, and the order of the output *)
(* ================================================================== *)

Module OrderSpec.
Import Py PyFacts ParserMac ReconcileSpec.
Local Open Scope float_scope.

(** A number that is not below zero: a zero, a positive number or [+inf]. *)
Definition not_negative (x : spec_float) : bool :=
  match x with
  | S754_zero _ => true
  | S754_infinity s => negb s
  | S754_finite s _ _ => negb s
  | S754_nan => false
  end.

(** A number below zero. *)
Definition negative (x : spec_float) : bool :=
  match x with
  | S754_infinity s => s
  | S754_finite s _ _ => s
  | _ => false
  end.

Lemma zero_leb (x : float) :
  (0 <=? x) = not_negative (Prim2SF x).
Proof.
  rewrite leb_spec. unfold SFleb.
  let v := eval vm_compute in (Prim2SF 0) in change (Prim2SF 0) with v.
  destruct (Prim2SF x) as [s|[|]| |[|] m e]; reflexivity.
Qed.

Lemma ltb_zero (x : float) :
  (x <? 0) = negative (Prim2SF x).
Proof.
  rewrite ltb_spec. unfold SFltb.
  let v := eval vm_compute in (Prim2SF 0) in change (Prim2SF 0) with v.
  destruct (Prim2SF x) as [s|[|]| |[|] m e]; reflexivity.
Qed.

(** Rounding a non-negative mantissa keeps the sign it is given. *)
Lemma binary_round_aux_sign (prec emax : Z) (s : bool) (m e : Z) (l : location) :
  (0 <= m)%Z ->
  negative (binary_round_aux prec emax s m e l) = true -> s = true.
Proof.
  intros H. unfold binary_round_aux.
  destruct (shr_fexp prec emax m e l) as [mrs' e'].
  destruct (shr_fexp prec emax _ e' loc_Exact) as [mrs'' e''].
  destruct (shr_m mrs'') as [|p|p]; simpl; try discriminate.
  destruct (e'' <=? emax - prec)%Z; simpl; auto.
Qed.

Lemma SFdiv_finite_sign (prec emax : Z) (sx sy : bool) (mx my : positive)
    (ex ey : Z) :
  negative (SFdiv prec emax (S754_finite sx mx ex) (S754_finite sy my ey)) = true ->
  xorb sx sy = true.
Proof.
  unfold SFdiv, SFdiv_core_binary.
  set (m' := match (_ - _ - _)%Z with Zpos _ => _ | Z0 => _ | Zneg _ => _ end).
  assert (Hm : (0 <= m')%Z).
  { unfold m'. destruct (_ - _ - _)%Z; try lia. apply Z.shiftl_nonneg. lia. }
  pose proof (Z.div_pos m' (Zpos my) Hm eq_refl) as Hq.
  unfold Z.div in Hq.
  destruct (Z.div_eucl m' (Zpos my)) as [q r]. simpl in Hq.
  now apply binary_round_aux_sign.
Qed.

Lemma negative_not_negative (x : spec_float) :
  x <> S754_nan -> negative x = false -> not_negative x = true.
Proof.
  destruct x as [s|s| |s m e]; simpl; intros Hn H; try reflexivity;
    try (now rewrite H); now contradiction Hn.
Qed.

Lemma div_1000_not_negative (x : float) :
  (0 <? x) = true -> (0 <=? x / 1000) = true.
Proof.
  intros H. rewrite zero_leb.
  pose proof (FloatOrder.div_1000_number x H) as Hnum.
  apply FloatOrder.is_nan_false in Hnum.
  apply negative_not_negative; [exact Hnum|].
  rewrite div_spec. clear Hnum.
  rewrite ltb_spec in H. unfold SFltb in H.
  let v := eval vm_compute in (Prim2SF 0) in change (Prim2SF 0) with v in H.
  let v := eval vm_compute in (Prim2SF 1000) in change (Prim2SF 1000) with v.
  unfold SF64div.
  destruct (Prim2SF x) as [s|[|]| |[|] m e]; simpl in H; try discriminate H;
    [reflexivity|].
  match goal with
  | |- negative ?r = false =>
      destruct (negative r) eqn:E; [|reflexivity]
  end.
  apply SFdiv_finite_sign in E. discriminate.
Qed.

Lemma leb_above_not_negative (g d : float) :
  (0 <=? g) = true -> (g <=? d) = true -> (0 <=? d) = true.
Proof.
  rewrite !zero_leb, leb_spec. unfold SFleb.
  destruct (Prim2SF g) as [sg|[|]| |[|] mg eg],
           (Prim2SF d) as [sd|[|]| |[|] md ed];
    simpl; try discriminate; try reflexivity.
Qed.

Lemma negative_below_not_negative (d g : float) :
  (d <? 0) = true -> (0 <=? g) = true -> (d <? g) = true.
Proof.
  rewrite ltb_zero, zero_leb, ltb_spec. unfold SFltb.
  destruct (Prim2SF d) as [sd|[|]| |[|] md ed],
           (Prim2SF g) as [sg|[|]| |[|] mg eg];
    simpl; try discriminate; try reflexivity.
Qed.

Lemma min_gap_s_not_negative (a : Args) : (0 <=? min_gap_s a) = true.
Proof.
  unfold min_gap_s. destruct (0 <? min_gap_ms a) eqn:E.
  - now apply div_1000_not_negative.
  - reflexivity.
Qed.

Section Order.

Variable unicode_word : char -> bool.
Variable json_loads : str -> result json.
Variable float_of_str : str -> option float.
Variable py_str : json -> str.
Variable path_resolve : str -> str.
Variable w : World.
Variable a : Args.

(** X20.  The output log never goes back in video time, whatever
    [--min-gap-ms] is (zero, negative and NaN all act as zero): for two lines
    written one after the other, [0 <= rel[i+1] - rel[i]] whenever that
    difference is a number, as it is for finite relative times; and a
    candidate whose relative time lies before that of the last line written
    leaves the loop as it found it. *)
Theorem output_never_goes_back_in_time :
  (forall (recs : list Written) (k : nat) (r1 r2 : Written),
      out_jsonl (main unicode_word json_loads float_of_str py_str path_resolve w a)
        = Some recs ->
      nth_error recs k = Some r1 -> nth_error recs (S k) = Some r2 ->
      (is_nan (w_rel r2 - w_rel r1) = false ->
       (0 <=? w_rel r2 - w_rel r1) = true) /\
      (is_finite (w_rel r1) = true -> is_finite (w_rel r2) = true ->
       (0 <=? w_rel r2 - w_rel r1) = true)) /\
  (forall (anchor : float) (evs : list json) (st' : Loop) (i : nat) (d : dict)
          (ts : float),
      let st := fst (loop float_of_str py_str path_resolve w a anchor
                          loop_init 0 evs) in
      sanitize_ts float_of_str (get d (lit "ts")) = Ok (Some ts) ->
      (ts - anchor + offset_s a - tracked (fout st) <? 0) = true ->
      step float_of_str py_str path_resolve w a anchor st i (JObj d) = Ok st' ->
      st' = st).
Proof.
  split.
  - intros recs k r1 r2 Hout H1 H2.
    destruct (main_written unicode_word json_loads float_of_str py_str
                path_resolve w a recs Hout) as (anchor & j & st & _ & Hinv & ->).
    destruct (Sorted_consecutive (Next a) _ (inv_next _ _ _ _ _ _ _ _ _ Hinv)
                k r1 r2 H1 H2) as (_ & _ & Hgap).
    assert (Hnum : is_nan (w_rel r2 - w_rel r1) = false ->
                   (0 <=? w_rel r2 - w_rel r1) = true).
    { intros Hn.
      apply (leb_above_not_negative (min_gap_s a));
        [apply min_gap_s_not_negative|].
      apply FloatOrder.not_ltb_leb; auto using min_gap_s_number. }
    split; [exact Hnum|].
    intros Hf1 Hf2. now apply Hnum, FloatOrder.sub_finite_number.
  - intros anchor evs st' i d ts st Hts Hback Hstep.
    destruct (loop_Inv float_of_str py_str path_resolve w a evs anchor evs []
                loop_init eq_refl
                (Inv_init float_of_str py_str path_resolve w a evs anchor))
      as [j Hj].
    simpl List.length in Hj. unfold loop_ in Hj. fold st in Hj.
    apply (step_discards float_of_str py_str path_resolve w a anchor st st' i d
             ts Hts); [|exact Hstep].
    right. right. right.
    rewrite (inv_last _ _ _ _ _ _ _ _ _ Hj).
    apply negative_below_not_negative;
      [exact Hback|apply min_gap_s_not_negative].
Qed.

End Order.

(** ** A concrete run *)

(** No minimum gap is asked for. *)
Definition args0 : Args := mkArgs None 0 0 (lit "jpg") (lit "last").

Definition after_later_click : Loop :=
  fst (loop no_float no_str as_is (world4 marked_log always_ok) args0
            1700000100 loop_init 0 [click_50ms_later]).

(** The click of 50 ms earlier, met after the later one, is passed over. *)
Lemma output_never_goes_back_in_time_witness :
  step no_float no_str as_is (world4 marked_log always_ok) args0
       1700000100 after_later_click 1 click_at_101
  = Ok after_later_click.
Proof.
  destruct (step no_float no_str as_is (world4 marked_log always_ok) args0
              1700000100 after_later_click 1 click_at_101) as [st'|e] eqn:E;
    [|vm_compute in E; discriminate].
  now rewrite (proj2 (output_never_goes_back_in_time AnchorSpec.ascii_only
                        loads4 no_float no_str as_is
                        (world4 marked_log always_ok) args0)
                 1700000100 [click_50ms_later] st' 1%nat
                 [(lit "type", JStr (lit "click")); (lit "ts", JFloat 1700000101)]
                 1700000101 eq_refl eq_refl E).
Defined.

End OrderSpec.

(* ================================================================== *)
(** * video.py: which encoder and which screen are chosen *)
(* ================================================================== *)

Module VideoSpec.
Import Py Video.

(** ** The encoder *)

Lemma first_listed_some (order : list str) (enc_list name : str) :
  first_listed order enc_list = Some name ->
  exists pre post,
    order = pre ++ name :: post
    /\ Forall (fun n => contains n enc_list = false) pre
    /\ contains name enc_list = true.
Proof.
  induction order as [|n rest IH]; cbn [first_listed]; [discriminate|].
  destruct (contains n enc_list) eqn:Hn; intros H.
  - injection H as <-. exists [], rest. repeat split; auto.
  - destruct (IH H) as (pre & post & -> & Hpre & Hname).
    exists (n :: pre), post. repeat split; auto.
Qed.

Lemma first_listed_none (order : list str) (enc_list : str) :
  first_listed order enc_list = None <->
  Forall (fun n => contains n enc_list = false) order.
Proof.
  induction order as [|n rest IH]; cbn [first_listed].
  - split; auto.
  - destruct (contains n enc_list) eqn:Hn; split; intros H.
    + discriminate.
    + inversion H; congruence.
    + constructor; [assumption | now apply IH].
    + inversion H; now apply IH.
Qed.

Lemma first_listed_app (pre rest : list str) (enc_list : str) :
  Forall (fun n => contains n enc_list = false) pre ->
  first_listed (pre ++ rest) enc_list = first_listed rest enc_list.
Proof.
  induction 1 as [|n pre Hn _ IH]; cbn [app first_listed]; [reflexivity|].
  now rewrite Hn.
Qed.

Section Encoder.

Variable lower : str -> str.

(** The priority list of the family that [pref] asks for, and the software
    encoder that ends it. *)
Definition family (pref : str) : list str :=
  if str_eqb (lower pref) (lit "hevc") then hevc_order else h264_order.

Definition software (pref : str) : str :=
  if str_eqb (lower pref) (lit "hevc") then lit "libx265" else lit "libx264".

Definition hardware (pref : str) : list str := removelast (family pref).

Definition listing_of (encoders : option str) : str :=
  match encoders with Some out => out | None => [] end.

Lemma family_hardware (pref : str) :
  family pref = hardware pref ++ [software pref].
Proof.
  unfold hardware, family, software.
  destruct (str_eqb (lower pref) (lit "hevc")); reflexivity.
Qed.

(** X21. [_pick_encoder] returns the first name of the requested family's
    priority list that occurs in ffmpeg's encoder listing: every name in
    front of it in the list does not occur in the listing, and the name
    itself occurs in it unless it is the last entry of the list (the
    software encoder, taken when nothing is listed). *)
Theorem encoder_is_first_listed_of_family (encoders : option str)
    (pref : str) :
  exists name pre post,
    _pick_encoder lower encoders pref = [(lit "name", JStr name)]
    /\ family pref = pre ++ name :: post
    /\ Forall (fun n => contains n (listing_of encoders) = false) pre
    /\ (contains name (listing_of encoders) = true \/ post = []).
Proof.
  unfold _pick_encoder. fold (listing_of encoders). fold (family pref).
  fold (software pref).
  destruct (first_listed (family pref) (listing_of encoders)) as [name|] eqn:H.
  - destruct (first_listed_some _ _ _ H) as (pre & post & Hf & Hpre & Hname).
    exists name, pre, post. auto.
  - apply first_listed_none in H. rewrite family_hardware in H |- *.
    apply Forall_app in H as [Hh _].
    exists (software pref), (hardware pref), []. auto.
Qed.

Lemma pick_encoder_software (encoders : option str) (pref : str) :
  Forall (fun n => contains n (listing_of encoders) = false) (hardware pref) ->
  _pick_encoder lower encoders pref = [(lit "name", JStr (software pref))].
Proof.
  intros Hh. unfold _pick_encoder. fold (listing_of encoders).
  fold (family pref). fold (software pref).
  rewrite family_hardware, (first_listed_app _ _ _ Hh).
  cbn [first_listed].
  destruct (contains (software pref) (listing_of encoders)); reflexivity.
Qed.

Lemma hardware_not_in_empty (pref : str) :
  Forall (fun n => contains n [] = false) (hardware pref).
Proof.
  unfold hardware, family.
  destruct (str_eqb (lower pref) (lit "hevc"));
    repeat constructor.
Qed.

(** X22. When no hardware encoder of the requested family occurs in the
    encoder listing, [_pick_encoder] returns the family's software encoder
    (libx265 for hevc, libx264 otherwise), whether or not the listing names
    it; this is in particular so when running ffmpeg raised. *)
Theorem no_hardware_listed_gives_software (encoders : option str)
    (pref : str) :
  (Forall (fun n => contains n (listing_of encoders) = false) (hardware pref)
   -> _pick_encoder lower encoders pref
      = [(lit "name", JStr (software pref))])
  /\ _pick_encoder lower None pref = [(lit "name", JStr (software pref))].
Proof.
  split.
  - apply pick_encoder_software.
  - apply pick_encoder_software. apply hardware_not_in_empty.
Qed.

End Encoder.

(** ** The video section of the device listing *)

Definition is_video_header (line : str) : bool := contains video_header line.

(** A line at which the first loop breaks: the audio header, on a line that
    is not taken for the video header first. *)
Definition is_audio_break (line : str) : bool :=
  negb (contains video_header line) && contains audio_header line.

(** The lines in front of the first one that satisfies [p]. *)
Fixpoint take_until (p : str -> bool) (lines : list str) : list str :=
  match lines with
  | [] => []
  | line :: rest => if p line then [] else line :: take_until p rest
  end.

(** The lines behind the first one that satisfies [p]. *)
Fixpoint drop_through (p : str -> bool) (lines : list str) : list str :=
  match lines with
  | [] => []
  | line :: rest => if p line then rest else drop_through p rest
  end.

Definition not_video_header (line : str) : bool := negb (is_video_header line).

Lemma video_section_capturing (lines : list str) :
  video_section_from true lines
  = filter not_video_header (take_until is_audio_break lines).
Proof.
  induction lines as [|line rest IH]; [reflexivity|].
  cbn [video_section_from take_until].
  unfold is_audio_break, not_video_header, is_video_header in *.
  destruct (contains video_header line) eqn:Hv; cbn [negb andb].
  - cbn [filter]. unfold is_video_header. rewrite Hv. cbn [negb]. exact IH.
  - destruct (contains audio_header line) eqn:Ha; [reflexivity|].
    cbn [filter]. rewrite Hv. cbn [negb]. now rewrite IH.
Qed.

Lemma video_section_waiting (lines : list str) :
  video_section_from false lines
  = filter not_video_header
      (drop_through is_video_header (take_until is_audio_break lines)).
Proof.
  induction lines as [|line rest IH]; [reflexivity|].
  cbn [video_section_from take_until].
  unfold is_audio_break at 1.
  destruct (contains video_header line) eqn:Hv; cbn [negb andb].
  - cbn [drop_through]. unfold is_video_header at 1. rewrite Hv.
    apply video_section_capturing.
  - destruct (contains audio_header line) eqn:Ha; [reflexivity|].
    cbn [drop_through]. unfold is_video_header at 1. rewrite Hv. exact IH.
Qed.

(** X23. The lines that [_auto_screen_index_mac] searches are found in three
    steps: cut the listing in front of the first line that holds the audio
    header and not the video header, keep what follows the first line that
    holds the video header, and leave out every further line that holds the
    video header. Nothing is searched when the audio header comes first. *)
Theorem video_section_is_between_the_headers (lines : list str) :
  video_section_from false lines
  = filter not_video_header
      (drop_through is_video_header (take_until is_audio_break lines)).
Proof. apply video_section_waiting. Qed.

Lemma take_until_in (p : str -> bool) (lines : list str) (line : str) :
  In line (take_until p lines) -> In line lines /\ p line = false.
Proof.
  induction lines as [|l rest IH]; cbn [take_until]; [intros []|].
  destruct (p l) eqn:Hp; [intros []|].
  intros [<-|H]; [split; [now left | assumption]|].
  destruct (IH H). split; [now right | assumption].
Qed.

Lemma drop_through_in (p : str -> bool) (lines : list str) (line : str) :
  In line (drop_through p lines) -> In line lines.
Proof.
  induction lines as [|l rest IH]; cbn [drop_through]; [intros []|].
  destruct (p l); intros H; right; auto.
Qed.

Lemma video_section_in (lines : list str) (line : str) :
  In line (video_section_from false lines) ->
  In line lines
  /\ contains video_header line = false
  /\ contains audio_header line = false.
Proof.
  rewrite video_section_waiting. intros H.
  apply filter_In in H as [H Hv].
  apply drop_through_in, take_until_in in H as [H Ha].
  unfold not_video_header, is_video_header in Hv.
  unfold is_audio_break in Ha.
  destruct (contains video_header line); [discriminate|].
  cbn [negb andb] in Ha. auto.
Qed.

(** A line kept by the first loop, where it stands in the listing. *)
Lemma video_section_position (lines : list str) :
  forall (capture : bool) (line : str),
    In line (video_section_from capture lines) ->
    exists before after,
      lines = before ++ line :: after
      /\ (capture = true \/ Exists (fun l => is_video_header l = true) before)
      /\ Forall (fun l => is_audio_break l = false) before
      /\ contains video_header line = false
      /\ contains audio_header line = false.
Proof.
  induction lines as [|l rest IH]; intros capture line;
    cbn [video_section_from]; [intros []|].
  destruct (contains video_header l) eqn:Hv.
  - intros H. destruct (IH true line H) as (b & af & -> & _ & Hb & H1 & H2).
    exists (l :: b), af. split; [reflexivity|].
    split; [right; left; exact Hv|]. split; [|auto].
    constructor; [|exact Hb]. unfold is_audio_break. now rewrite Hv.
  - destruct (contains audio_header l) eqn:Ha; [intros []|].
    assert (Hl : is_audio_break l = false)
      by (unfold is_audio_break; now rewrite Hv, Ha).
    assert (Hrest : In line (video_section_from capture rest) ->
              exists before after,
                l :: rest = before ++ line :: after
                /\ (capture = true
                    \/ Exists (fun l => is_video_header l = true) before)
                /\ Forall (fun l => is_audio_break l = false) before
                /\ contains video_header line = false
                /\ contains audio_header line = false).
    { intros H. destruct (IH capture line H) as (b & af & -> & Hc & Hb & H1 & H2).
      exists (l :: b), af. split; [reflexivity|]. split.
      - destruct Hc as [Hc|Hc]; [now left|right; now right].
      - split; [constructor; assumption|auto]. }
    destruct capture; [|exact Hrest].
    intros [<-|H]; [|exact (Hrest H)].
    exists [], rest. split; [reflexivity|]. split; [now left|].
    split; [constructor|auto].
Qed.

(** ** The choice among the matches *)

Lemma collect_in (search : str -> option (Z * Z)) (lines : list str)
    (m : Z * Z) :
  In m (collect search lines) <->
  exists line, In line lines /\ search line = Some m.
Proof.
  induction lines as [|l rest IH]; cbn [collect].
  - split; [intros [] | intros (? & [] & _)].
  - destruct (search l) as [m'|] eqn:Hl.
    + split.
      * intros [<-|H]; [exists l; split; [now left | assumption]|].
        apply IH in H as (line & Hin & Hs). exists line. split; [now right|auto].
      * intros (line & [<-|Hin] & Hs); [left; congruence|].
        right. apply IH. eauto.
    + split.
      * intros H. apply IH in H as (line & Hin & Hs).
        exists line. split; [now right|auto].
      * intros (line & [<-|Hin] & Hs); [congruence|]. apply IH. eauto.
Qed.



Lemma first_screen_0_in (matches : list (Z * Z)) (dev : Z) :
  first_screen_0 matches = Some dev -> In (dev, 0) matches.
Proof.
  induction matches as [|[d s] ms IH]; cbn [first_screen_0]; [discriminate|].
  destruct (Z.eqb_spec s 0) as [->|_]; intros H.
  - injection H as <-. now left.
  - right. auto.
Qed.

Section Screen.

Variable pat_search : str -> option (Z * Z).
Variable pat_alt_search : str -> option (Z * Z).

(** The list [matches] as it stands in front of the choice: the matches of
    [pat] in the video section, those of [pat_alt] when there are none. *)
Definition screen_matches (text : str) : list (Z * Z) :=
  let video_section := video_section_from false (splitlines text) in
  match collect pat_search video_section with
  | [] => collect pat_alt_search video_section
  | m :: ms => m :: ms
  end.

Definition auto_screen (listing : option str) : result Z :=
  _auto_screen_index_mac pat_search pat_alt_search listing.

Lemma auto_screen_matches (text : str) :
  auto_screen (Some text)
  = match screen_matches text with
    | [] => Raise RuntimeError
    | (dev0, _) :: _ =>
        match first_screen_0 (screen_matches text) with
        | Some dev_idx => Ok dev_idx
        | None => Ok dev0
        end
    end.
Proof.
  unfold auto_screen, _auto_screen_index_mac, screen_matches.
  destruct (collect pat_search (video_section_from false (splitlines text)));
    reflexivity.
Qed.





Lemma screen_matches_in (text : str) (m : Z * Z) :
  In m (screen_matches text) ->
  exists line,
    In line (video_section_from false (splitlines text))
    /\ (pat_search line = Some m \/ pat_alt_search line = Some m).
Proof.
  unfold screen_matches.
  destruct (collect pat_search (video_section_from false (splitlines text)))
    as [|m0 ms] eqn:E.
  - intros H. apply collect_in in H as (line & Hin & Hs).
    exists line. auto.
  - rewrite <- E. intros H. apply collect_in in H as (line & Hin & Hs).
    exists line. auto.
Qed.

Lemma auto_screen_in (text : str) (dev : Z) :
  auto_screen (Some text) = Ok dev ->
  exists scr, In (dev, scr) (screen_matches text).
Proof.
  rewrite auto_screen_matches.
  destruct (screen_matches text) as [|[d s] ms] eqn:E; [discriminate|].
  destruct (first_screen_0 ((d, s) :: ms)) as [d'|] eqn:F; intros H;
    injection H as <-.
  - exists 0. now apply first_screen_0_in.
  - exists s. now left.
Qed.

(** X25.  An index that [_auto_screen_index_mac] returns is the device index
    of a match on a line that lies inside the video section of the listing:
    some line in front of it holds the video header, no line in front of it
    ends the section (holds the audio header and not the video header), and
    the line itself holds neither header.  A header line, and a line outside
    the video section, never supplies the device. *)
Theorem screen_index_comes_from_a_device_line (text : str) (dev : Z) :
  auto_screen (Some text) = Ok dev ->
  exists before line after scr,
    splitlines text = before ++ line :: after
    /\ Exists (fun l => is_video_header l = true) before
    /\ Forall (fun l => is_audio_break l = false) before
    /\ contains video_header line = false
    /\ contains audio_header line = false
    /\ (pat_search line = Some (dev, scr)
        \/ pat_alt_search line = Some (dev, scr)).
Proof.
  intros H. apply auto_screen_in in H as (scr & Hin).
  apply screen_matches_in in Hin as (line & Hl & Hs).
  apply video_section_position in Hl
    as (before & after & Hsplit & [Hc|Hv] & Hb & H1 & H2); [discriminate|].
  exists before, line, after, scr. auto 10.
Qed.

End Screen.

(** ** A listing as ffmpeg prints it *)

Definition nl : str := [10%N].

Definition mac_listing : str :=
  lit "[AVFoundation indev @ 0x1] AVFoundation video devices:" ++ nl
  ++ lit "[AVFoundation indev @ 0x1] [0] FaceTime HD Camera" ++ nl
  ++ lit "[AVFoundation indev @ 0x1] [3] Capture screen 1" ++ nl
  ++ lit "[AVFoundation indev @ 0x1] [4] Capture screen 0" ++ nl
  ++ lit "[AVFoundation indev @ 0x1] AVFoundation audio devices:" ++ nl
  ++ lit "[AVFoundation indev @ 0x1] [0] Capture screen 0" ++ nl.

(** What [pat.search] finds on the lines of [mac_listing]. *)
Definition mac_search (line : str) : option (Z * Z) :=
  if str_eqb line (lit "[AVFoundation indev @ 0x1] [3] Capture screen 1")
  then Some (3, 1)
  else if str_eqb line (lit "[AVFoundation indev @ 0x1] [4] Capture screen 0")
  then Some (4, 0)
  else if str_eqb line (lit "[AVFoundation indev @ 0x1] [0] Capture screen 0")
  then Some (0, 0)
  else None.

Lemma screen_index_comes_from_a_device_line_witness :
  auto_screen mac_search mac_search (Some mac_listing) = Ok 4
  /\ exists before line after scr,
       splitlines mac_listing = before ++ line :: after
       /\ Exists (fun l => is_video_header l = true) before
       /\ Forall (fun l => is_audio_break l = false) before
       /\ contains video_header line = false
       /\ contains audio_header line = false
       /\ (mac_search line = Some (4, scr) \/ mac_search line = Some (4, scr)).
Proof.
  split; [vm_compute; reflexivity|].
  apply (screen_index_comes_from_a_device_line mac_search mac_search
           mac_listing 4).
  vm_compute; reflexivity.
Defined.

End VideoSpec.
